(** * mudrets_bot: the Markov-chain core of [markov.py] and [new_bot.py]

    A shallow embedding of the two variants of the bot.

    - [Py] models the pieces of the Python runtime the bot relies on: strings
      as lists of code points, [str.split], [str.join], [str.strip], slices,
      [range], [random.choice], insertion-ordered dictionaries, and [str] /
      [eval] on tuples and lists of strings.
    - [Markov] is [markov.py]: the chain is a global dictionary, persisted as
      two JSON files.
    - [NewBot] is [new_bot.py]: the chain and the counters are rows of two
      SQL tables whose columns hold [str(...)] renderings.

    Randomness is an explicit oracle.  Asynchrony, logging, sleeping and the
    Telegram transport are not modelled; a handler is a function from the state
    before the message to the state after it. *)

From Stdlib Require Import String Ascii.
From Stdlib Require Import List ZArith NArith QArith Lia Bool.
Import ListNotations.
Local Open Scope Z_scope.

(* ================================================================== *)
(** * The Python runtime fragment *)
(* ================================================================== *)

Module Py.

(** A Python [str] is a sequence of Unicode code points. *)
Abbreviation char := N (only parsing).
Abbreviation str := (list N) (only parsing).

(** ASCII literals of the sources, as code points. *)
Definition lit (s : String.string) : str :=
  map Ascii.N_of_ascii (String.list_ascii_of_string s).
Arguments lit s%_string.

(** Code points are below [0x110000]. *)
Definition valid_char (c : char) : Prop := (c < 1114112)%N.
Definition valid_str (s : str) : Prop := Forall valid_char s.

(** The exceptions the modelled code can raise. *)
Inductive exn :=
| IndexError          (* random.choice([]) *)
| ZeroDivisionError   (* x / 0 *)
| KeyError            (* d[k] with k absent *)
| TypeError           (* a list used as a key; a number compared with a text *)
| AttributeError      (* append on a tuple or a string *)
| EvalError.          (* eval raised, or its text is outside the model *)

Inductive result (A : Type) :=
| Ok (a : A)
| Raise (e : exn).
Arguments Ok {A} a.
Arguments Raise {A} e.

Definition bind {A B} (r : result A) (k : A -> result B) : result B :=
  match r with
  | Ok a => k a
  | Raise e => Raise e
  end.

(** ** Equality tests *)

Fixpoint eqb_list {A} (eqb : A -> A -> bool) (l1 l2 : list A) : bool :=
  match l1, l2 with
  | [], [] => true
  | x :: r1, y :: r2 => eqb x y && eqb_list eqb r1 r2
  | _, _ => false
  end.

Definition str_eqb : str -> str -> bool := eqb_list N.eqb.
Definition tuple_eqb : list str -> list str -> bool := eqb_list str_eqb.

(** [x in l] for a list of strings. *)
Definition str_in (x : str) (l : list str) : bool := existsb (str_eqb x) l.

(** ** Sequences: [len], [range], indexing and slicing *)

Definition len {A} (l : list A) : Z := Z.of_nat (length l).

(** [range(n)]: empty when [n <= 0]. *)
Definition range (n : Z) : list Z := map Z.of_nat (seq 0 (Z.to_nat n)).

(** [l[i]], negative indices counted from the end. *)
Definition index {A} (l : list A) (i : Z) : result A :=
  let j := if i <? 0 then i + len l else i in
  if j <? 0 then Raise IndexError
  else match nth_error l (Z.to_nat j) with
       | Some x => Ok x
       | None => Raise IndexError
       end.

(** Bound of a slice: a negative bound is counted from the end, and the
    result is clamped to [0 .. len l]. *)
Definition clamp {A} (l : list A) (i : Z) : nat :=
  let j := if i <? 0 then i + len l else i in
  Z.to_nat (Z.min (Z.max j 0) (len l)).

(** [l[lo:hi]] *)
Definition slice {A} (l : list A) (lo hi : Z) : list A :=
  firstn (clamp l hi - clamp l lo) (skipn (clamp l lo) l).

(** [l[lo:]] *)
Definition slice_from {A} (l : list A) (lo : Z) : list A :=
  skipn (clamp l lo) l.

(** ** [random.choice]

    The random source is an oracle: the [k]-th draw of a call is a natural
    number [r], and [random.choice(l)] answers [l[r mod len(l)]].  On the
    empty sequence it raises [IndexError]. *)
Definition oracle := nat -> nat.

Definition choice {A} (r : nat) (l : list A) : result A :=
  match nth_error l (r mod length l) with
  | Some x => Ok x
  | None => Raise IndexError
  end.

(** ** Dictionaries

    A [dict] keeps its keys in insertion order; assigning to a key that is
    present replaces the value in place. *)
Section Dict.
Context {K V : Type} (eqb : K -> K -> bool).

Fixpoint dict_get (d : list (K * V)) (k : K) : option V :=
  match d with
  | [] => None
  | (k', v) :: r => if eqb k k' then Some v else dict_get r k
  end.

Definition dict_mem (d : list (K * V)) (k : K) : bool :=
  match dict_get d k with Some _ => true | None => false end.

Fixpoint dict_set (d : list (K * V)) (k : K) (v : V) : list (K * V) :=
  match d with
  | [] => [(k, v)]
  | (k', v') :: r =>
      if eqb k k' then (k', v) :: r else (k', v') :: dict_set r k v
  end.

(** [dict(items)] and the dictionary comprehension [{k: v for ...}]. *)
Definition dict_of (items : list (K * V)) : list (K * V) :=
  fold_left (fun d kv => dict_set d (fst kv) (snd kv)) items [].
End Dict.

(** ** [str.split()], [sep.join(...)], [str.strip()], [sub in s] *)

(** [str.isspace] on one code point (the table of CPython's
    [_PyUnicode_IsWhitespace]). *)
Definition isspace (c : char) : bool :=
  ((9 <=? c) && (c <=? 13) || (28 <=? c) && (c <=? 32)
   || (c =? 133) || (c =? 160) || (c =? 5760)
   || (8192 <=? c) && (c <=? 8202)
   || (c =? 8232) || (c =? 8233) || (c =? 8239) || (c =? 8287)
   || (c =? 12288))%N.

(** [s.split()]: the maximal runs of non-whitespace, in order.  [cur] is the
    run being read. *)
Fixpoint split_from (cur : str) (s : str) : list str :=
  match s with
  | [] => match cur with [] => [] | _ => [cur] end
  | c :: r =>
      if isspace c
      then match cur with
           | [] => split_from [] r
           | _ => cur :: split_from [] r
           end
      else split_from (cur ++ [c]) r
  end.

Definition split (s : str) : list str := split_from [] s.

Fixpoint join (sep : str) (l : list str) : str :=
  match l with
  | [] => []
  | [x] => x
  | x :: r => x ++ sep ++ join sep r
  end.

Fixpoint lstrip (s : str) : str :=
  match s with
  | [] => []
  | c :: r => if isspace c then lstrip r else s
  end.

Definition rstrip (s : str) : str := rev (lstrip (rev s)).
Definition strip (s : str) : str := rstrip (lstrip s).

Fixpoint startswith (s p : str) : bool :=
  match p, s with
  | [], _ => true
  | c :: p', d :: s' => (c =? d)%N && startswith s' p'
  | _ :: _, [] => false
  end.

(** [sub in s] *)
Fixpoint contains (s sub : str) : bool :=
  startswith s sub
  || match s with
     | [] => false
     | _ :: r => contains r sub
     end.

(** [s.replace(old, '')] for a one-character [old], and the number of
    characters (SQL [length], [replace]). *)
Definition remove_char (c : char) (s : str) : str :=
  filter (fun d => negb (d =? c)%N) s.

(** ** [str(...)] of strings, tuples and lists *)

Definition hexdigit (d : N) : char :=
  (if d <? 10 then 48 + d else 87 + d)%N.

(** [w] lower-case hexadecimal digits, most significant first. *)
Fixpoint hex_fixed (w : nat) (n : N) : str :=
  match w with
  | O => []
  | S w' =>
      (hexdigit (n / 16 ^ N.of_nat w') :: hex_fixed w' (n mod 16 ^ N.of_nat w'))%N
  end.

Section Repr.
(** [Py_UNICODE_ISPRINTABLE], a table of the Unicode database; it is only
    consulted for code points above [0x7f]. *)
Variable isprintable : char -> bool.

(** One character of a string literal delimited by [quote]. *)
Definition repr_char (quote : char) (c : char) : str :=
  (if (c =? quote) || (c =? 92) then [92; c]
   else if c =? 9 then [92; 116]
   else if c =? 10 then [92; 110]
   else if c =? 13 then [92; 114]
   else if (c <? 32) || (c =? 127) then 92 :: 120 :: hex_fixed 2 c
   else if c <? 127 then [c]
   else if isprintable c then [c]
   else if c <=? 255 then 92 :: 120 :: hex_fixed 2 c
   else if c <=? 65535 then 92 :: 117 :: hex_fixed 4 c
   else 92 :: 85 :: hex_fixed 8 c)%N.

(** The delimiter: a single quote, unless the string has a single quote
    and no double quote. *)
Definition quote_of (s : str) : char :=
  (if existsb (N.eqb 39) s && negb (existsb (N.eqb 34) s) then 34 else 39)%N.

Definition repr_str (s : str) : str :=
  let q := quote_of s in
  q :: flat_map (repr_char q) s ++ [q].

Definition comma_space : str := [44; 32]%N.

(** [str(t)] for a tuple [t] of strings *)
Definition str_tuple (t : list str) : str :=
  match t with
  | [x] => [40] ++ repr_str x ++ [44; 41]
  | _ => [40] ++ join comma_space (map repr_str t) ++ [41]
  end%N.

(** [str(l)] for a list [l] of strings *)
Definition str_list (l : list str) : str :=
  ([91] ++ join comma_space (map repr_str l) ++ [93])%N.
End Repr.

(** ** [eval] on the texts [str] produces

    [eval] is modelled on displays of string literals: a parenthesised or
    bracketed, comma-separated sequence of quoted literals, with the escapes
    of a backslash, of either quote, of tab, line feed and carriage return,
    and the hexadecimal escapes of two, four and eight digits.  On any other
    text the model answers [EvalError]: either [eval] raises there or the
    text is an expression the model does not cover.  The reader is
    an automaton that consumes one character at a time. *)

Inductive lex :=
| Plain                       (* inside a literal *)
| Esc                         (* after a backslash *)
| Hex (k : nat) (acc : N).    (* [k] hexadecimal digits still to read *)

Inductive pstate :=
| PStart
| PItem (close : char) (items : list str) (comma : bool)
| PLit (close : char) (items : list str) (q : char) (l : lex) (out : str)
| PAfter (close : char) (items : list str)
| PDone (close : char) (items : list str) (comma : bool).

Definition hexval (c : char) : option N :=
  (if (48 <=? c) && (c <=? 57) then Some (c - 48)
   else if (97 <=? c) && (c <=? 102) then Some (c - 87)
   else if (65 <=? c) && (c <=? 70) then Some (c - 55)
   else None)%N.

Definition lex_step (l : lex) (q : char) (out : str) (c : char)
  : option (lex * str) + unit :=
  (* [inr tt]: the literal is closed *)
  match l with
  | Plain =>
      if (c =? q)%N then inr tt
      else if (c =? 92)%N then inl (Some (Esc, out))
      else inl (Some (Plain, out ++ [c]))
  | Esc =>
      (if (c =? 92) || (c =? 39) || (c =? 34) then inl (Some (Plain, out ++ [c]))
       else if c =? 116 then inl (Some (Plain, out ++ [9]))
       else if c =? 110 then inl (Some (Plain, out ++ [10]))
       else if c =? 114 then inl (Some (Plain, out ++ [13]))
       else if c =? 120 then inl (Some (Hex 2 0, out))
       else if c =? 117 then inl (Some (Hex 4 0, out))
       else if c =? 85 then inl (Some (Hex 8 0, out))
       else inl None)%N
  | Hex k acc =>
      match hexval c, k with
      | Some d, 1%nat =>
          (* a code point above 0x10ffff is rejected *)
          if (acc * 16 + d <? 1114112)%N
          then inl (Some (Plain, out ++ [acc * 16 + d]%N))
          else inl None
      | Some d, S k' => inl (Some (Hex k' (acc * 16 + d)%N, out))
      | _, _ => inl None
      end
  end.

Definition pstep (st : pstate) (c : char) : option pstate :=
  match st with
  | PStart =>
      (if c =? 40 then Some (PItem 41 [] false)
       else if c =? 91 then Some (PItem 93 [] false)
       else None)%N
  | PItem close items comma =>
      (if c =? 32 then Some st
       else if c =? close then Some (PDone close items comma)
       else if (c =? 39) || (c =? 34) then Some (PLit close items c Plain [])
       else None)%N
  | PLit close items q l out =>
      match lex_step l q out c with
      | inr _ => Some (PAfter close (items ++ [out]))
      | inl (Some (l', out')) => Some (PLit close items q l' out')
      | inl None => None
      end
  | PAfter close items =>
      (if c =? 32 then Some st
       else if c =? 44 then Some (PItem close items true)
       else if c =? close then Some (PDone close items false)
       else None)%N
  | PDone _ _ _ => None
  end.

Fixpoint run (st : pstate) (s : str) : option pstate :=
  match s with
  | [] => Some st
  | c :: r => match pstep st c with
              | Some st' => run st' r
              | None => None
              end
  end.

Inductive value :=
| VStr (s : str)
| VTuple (items : list str)
| VList (items : list str).

(** [eval(s)].  A parenthesised single literal without a trailing comma is
    that string, not a tuple. *)
Definition eval (s : str) : result value :=
  match run PStart s with
  | Some (PDone close items comma) =>
      if (close =? 41)%N
      then match items, comma with
           | [x], false => Ok (VStr x)
           | _, _ => Ok (VTuple items)
           end
      else Ok (VList items)
  | _ => Raise EvalError
  end.

End Py.

(* ================================================================== *)
(** * [markov.py] *)
(* ================================================================== *)

Module Markov.
Import Py.

(** [MARKOV_ORDER = 2] *)
Definition MARKOV_ORDER : Z := 2.

Abbreviation Token := str (only parsing).
(** A key of the chain: a tuple of tokens. *)
Abbreviation Context := (list str) (only parsing).
(** [markov_chain]: a dictionary from tuples to lists of tokens. *)
Abbreviation Chain := (list (list str * list str)) (only parsing).

(** The module's global variables. *)
Record globals := {
  markov_chain : Chain;
  total_messages : Z;
  generated_messages : Z
}.

(** The two JSON files; [None] when the file does not exist.  A file holds the
    JSON object that was dumped: its members in order. *)
Record files := {
  CHAIN_FILE : option (list (str * list Token));
  STATS_FILE : option (list (str * Z))
}.

(** [d[k]] *)
Definition getitem {V} (d : list (Context * V)) (k : Context) : result V :=
  match dict_get tuple_eqb d k with
  | Some v => Ok v
  | None => Raise KeyError
  end.

(** ** Learning: lines 119-126 of [on_message] *)

(** Lines 123-126, for a key and the token [next] that follows it:
<<
        if key not in markov_chain:
            markov_chain[key] = []
        if next not in markov_chain[key]:
            markov_chain[key].append(next)
>> *)
Definition add_observation (chain : Chain) (key : Context) (next : Token)
  : result Chain :=
  let chain1 :=
    if dict_mem tuple_eqb chain key then chain
    else dict_set tuple_eqb chain key [] in
  bind (getitem chain1 key) (fun successors =>
  if str_in next successors then Ok chain1
  else Ok (dict_set tuple_eqb chain1 key (successors ++ [next]))).

(** One turn of the loop of line 121, at index [i].  The source reads
    [text[i + MARKOV_ORDER]] after it has created the entry of the key; the
    read cannot fail for an [i] of the range (lemma [index_in_range]), so
    reading it first gives the same chain. *)
Definition learn_iter (chain : Chain) (text : list Token) (i : Z)
  : result Chain :=
  let key := slice text i (i + MARKOV_ORDER) in
  bind (index text (i + MARKOV_ORDER)) (fun next =>
  add_observation chain key next).

Fixpoint learn_loop (chain : Chain) (text : list Token) (turns : list Z)
  : result Chain :=
  match turns with
  | [] => Ok chain
  | i :: rest =>
      bind (learn_iter chain text i) (fun chain' =>
      learn_loop chain' text rest)
  end.

(** [for i in range(len(text) - MARKOV_ORDER): ...] *)
Definition learn (chain : Chain) (text : list Token) : result Chain :=
  learn_loop chain text (range (len text - MARKOV_ORDER)).

(** Lines 119-120: [text = message.text.split(); text.append("")]. *)
Definition tokenize (message_text : str) : list Token :=
  split message_text ++ [[]].

(** ** [generate_markov_text] *)

(** The loop of lines 83-88; [k] counts the draws made so far, [turns] is
    what is left of [range(max_words)]. *)
Fixpoint generate_loop (chain : Chain) (rnd : oracle) (k : nat)
    (turns : list Z) (text : list Token) : result (list Token) :=
  match turns with
  | [] => Ok text
  | _ :: rest =>
      let key := slice_from text (- MARKOV_ORDER) in
      match dict_get tuple_eqb chain key with
      | Some successors =>
          bind (choice (rnd k) successors) (fun next_word =>
          generate_loop chain rnd (S k) rest (text ++ [next_word]))
      | None => Ok text
      end
  end.

(** The token sequence [text] at the end of the loop. *)
Definition generate_tokens (chain : Chain) (rnd : oracle) (max_words : Z)
  : result (list Token) :=
  bind (choice (rnd O) (map fst chain)) (fun current_word =>
  generate_loop chain rnd 1 (range max_words) current_word).

Definition generate_markov_text (chain : Chain) (rnd : oracle) (max_words : Z)
  : result str :=
  bind (generate_tokens chain rnd max_words) (fun text =>
  Ok (join (lit " ") text)).

(** ** [wisdom] *)

Record stats := {
  st_total_messages : Z;
  st_generated_messages : Z;
  st_total_words : Z;      (* Total Combinations in Vocab *)
  st_chain_size : Z;       (* Markov Chain Size *)
  st_variability : Q       (* Variability coefficient *)
}.

Definition sum (l : list Z) : Z := fold_left Z.add l 0.

(** [a / b] on integers: the exact quotient (the rounding of the float and
    the two-digit formatting are not modelled). *)
Definition truediv (a b : Z) : result Q :=
  if b =? 0 then Raise ZeroDivisionError
  else Ok (inject_Z a / inject_Z b)%Q.

Definition wisdom (g : globals) : result stats :=
  let total_words := len (markov_chain g) in
  let chain_size := sum (map (fun values => len values) (map snd (markov_chain g))) in
  bind (truediv chain_size total_words) (fun v =>
  Ok {| st_total_messages := total_messages g;
        st_generated_messages := generated_messages g;
        st_total_words := total_words;
        st_chain_size := chain_size;
        st_variability := v |}).

(** ** Persistence *)

Section Persistence.
Variable isprintable : char -> bool.

(** An item [str(key): value] of the comprehension of line 41. *)
Definition serialize (kv : Context * list Token) : str * list Token :=
  (str_tuple isprintable (fst kv), snd kv).

(** [save_markov_chain]: both files are rewritten. *)
Definition save_markov_chain (g : globals) (fs : files) : files :=
  let serializable_chain := dict_of str_eqb (map serialize (markov_chain g)) in
  {| CHAIN_FILE := Some serializable_chain;
     STATS_FILE := Some [ (lit "total_msgs", total_messages g);
                          (lit "gen_msgs", generated_messages g) ] |}.
End Persistence.

(** [eval(key)] as a key of the dictionary.  A list is not hashable; a key
    that is a string is outside the model, whose keys are tuples. *)
Definition eval_key (key : str) : result Context :=
  match eval key with
  | Ok (VTuple t) => Ok t
  | Ok (VList _) => Raise TypeError
  | Ok (VStr _) => Raise EvalError
  | Raise e => Raise e
  end.

(** [{eval(key): value for key, value in serialized_chain.items()}] *)
Fixpoint eval_keys (items : list (str * list Token)) (acc : Chain)
  : result Chain :=
  match items with
  | [] => Ok acc
  | (key, value) :: rest =>
      bind (eval_key key) (fun k =>
      eval_keys rest (dict_set tuple_eqb acc k value))
  end.

Definition stat_item (st : list (str * Z)) (k : str) : result Z :=
  match dict_get str_eqb st k with
  | Some v => Ok v
  | None => Raise KeyError
  end.

(** [load_markov_chain]; [json.load] builds a dictionary from the members of
    the object. *)
Definition load_markov_chain (fs : files) : result globals :=
  bind (match CHAIN_FILE fs with
        | Some members => eval_keys (dict_of str_eqb members) []
        | None => Ok []
        end) (fun chain =>
  bind (match STATS_FILE fs with
        | Some members =>
            let st := dict_of str_eqb members in
            bind (stat_item st (lit "total_msgs")) (fun t =>
            bind (stat_item st (lit "gen_msgs")) (fun g => Ok (t, g)))
        | None => Ok (0, 0)
        end) (fun counters =>
  Ok {| markov_chain := chain;
        total_messages := fst counters;
        generated_messages := snd counters |})).

(** ** The handler [on_message] *)

Record Message := {
  text : str;
  chat_type : str
}.

(** The random source of one handler run: [skip] is the outcome of
    [random.random() > 0.1]; [draws] feeds [random.choice]. *)
Record randomness := {
  skip : bool;
  draws : oracle
}.

(** The word the bot answers to. *)
Definition mudrets : str := [1084; 1091; 1076; 1088; 1077; 1094]%N.

Definition addressed (m : Message) : bool :=
  contains (text m) (lit "@mudrets_robot")
  || str_eqb (chat_type m) (lit "private")
  || str_eqb (text m) mudrets.

Section Handler.
Variable isprintable : char -> bool.

(** The state after the handler, and what it did: [Ok None] when it
    returned without replying, [Ok (Some s)] when it replied [s], [Raise e]
    when it stopped on an exception.  The globals keep what was assigned
    before the exception. *)
Definition on_message (m : Message) (rnd : randomness)
    (g : globals) (fs : files)
  : globals * files * result (option str) :=
  let g1 := {| markov_chain := markov_chain g;
               total_messages := total_messages g + 1;
               generated_messages := generated_messages g |} in
  match learn (markov_chain g1) (tokenize (text m)) with
  | Raise e => (g1, fs, Raise e)
  | Ok chain =>
      let g2 := {| markov_chain := chain;
                   total_messages := total_messages g1;
                   generated_messages := generated_messages g1 |} in
      if negb (addressed m) && skip rnd then (g2, fs, Ok None)
      else
        let g3 := {| markov_chain := chain;
                     total_messages := total_messages g2;
                     generated_messages := generated_messages g2 + 1 |} in
        match generate_markov_text chain (draws rnd) 100 with
        | Raise e => (g3, fs, Raise e)
        | Ok generated_text =>
            (g3, save_markov_chain isprintable g3 fs, Ok (Some generated_text))
        end
  end.
End Handler.

End Markov.

(* ================================================================== *)
(** * [new_bot.py] *)
(* ================================================================== *)

Module NewBot.
Import Py.

Definition MARKOV_ORDER : Z := 2.
Definition MAX_WORDS : Z := 100.

(** The database: table [chain] (columns [key], [next_words]) and table
    [stats] (columns [key], [value]); [key] is the primary key of both.
    [init_db] creates the two tables without rows. *)
Record db := {
  chain : list (str * str);
  stats : list (str * Z)
}.

Definition init_db : db := {| chain := []; stats := [] |}.

(** [list(v)] for what [eval] answered: the items of a tuple or a list, the
    one-character strings of a string. *)
Definition items_of (v : value) : list str :=
  match v with
  | VTuple t => t
  | VList l => l
  | VStr s => map (fun c => [c]) s
  end.

(** The successors a column [next_words] stands for. *)
Definition items_of_text (next_words : str) : result (list str) :=
  bind (eval next_words) (fun v => Ok (items_of v)).

(** [get_stat]: the value of the first row with this key, [0] when there is
    none ([result.scalar() or 0]). *)
Definition get_stat (d : db) (key : str) : Z :=
  match dict_get str_eqb (stats d) key with
  | Some v => v
  | None => 0
  end.

(** [update_stat]: [UPDATE stats SET value = :value WHERE key = :key]. *)
Definition update_stat (d : db) (key : str) (value : Z) : db :=
  {| chain := chain d;
     stats := map (fun row => if str_eqb (fst row) key
                              then (fst row, value) else row) (stats d) |}.

Section WithTables.
(** Two tables of the Unicode database: [Py_UNICODE_ISPRINTABLE] and the
    lower-case mapping of [str.lower]. *)
Variable isprintable : char -> bool.
Variable lower : str -> str.

(** ** [build_markov_chain] *)

(** Lines 94-104, for a key and the word that follows it, on the rows of
    table [chain]:
<<
          key_str = str(key)
          chain_entry = await session.get(Chain, key_str)
          if chain_entry:
              next_words = eval(chain_entry.next_words)
              if next_word not in next_words:
                  next_words.append(next_word)
                  chain_entry.next_words = str(next_words)
          else:
              session.add(Chain(key=key_str, next_words=str([next_word])))
>> *)
Definition add_observation (rows : list (str * str)) (key : list str)
    (next_word : str) : result (list (str * str)) :=
  let key_str := str_tuple isprintable key in
  match dict_get str_eqb rows key_str with
  | Some col =>
      bind (eval col) (fun v =>
      match v with
      | VList next_words =>
          if str_in next_word next_words then Ok rows
          else Ok (dict_set str_eqb rows key_str
                     (str_list isprintable (next_words ++ [next_word])))
      | VTuple next_words =>
          if str_in next_word next_words then Ok rows
          else Raise AttributeError
      | VStr next_words =>
          if contains next_words next_word then Ok rows
          else Raise AttributeError
      end)
  | None =>
      Ok (rows ++ [(key_str, str_list isprintable [next_word])])
  end.

(** One turn of the loop of line 91. *)
Definition build_iter (rows : list (str * str)) (words : list str) (i : Z)
  : result (list (str * str)) :=
  let key := slice words i (i + MARKOV_ORDER) in
  bind (index words (i + MARKOV_ORDER)) (fun next_word =>
  add_observation rows key next_word).

Fixpoint build_loop (rows : list (str * str)) (words : list str)
    (turns : list Z) : result (list (str * str)) :=
  match turns with
  | [] => Ok rows
  | i :: rest =>
      bind (build_iter rows words i) (fun rows' =>
      build_loop rows' words rest)
  end.

(** [build_markov_chain(words)]; line 89 appends the empty string.  When
    the body raises, the session is rolled back: no row changes. *)
Definition build_markov_chain (d : db) (words0 : list str) : result db :=
  let words := words0 ++ [[]] in
  bind (build_loop (chain d) words (range (len words - MARKOV_ORDER)))
       (fun rows => Ok {| chain := rows; stats := stats d |}).

(** ** [get_random_key] and [generate_text] *)

(** [get_random_key]: what the key of a random row evaluates to, or the
    pair [("start", "here")] when the table has no row (or the key is the
    empty text). *)
Definition get_random_key (d : db) (r : nat) : result value :=
  match nth_error (map fst (chain d)) (r mod length (chain d)) with
  | Some ((_ :: _) as key) => eval key
  | _ => Ok (VTuple [lit "start"; lit "here"])
  end.

Fixpoint generate_loop (rows : list (str * str)) (rnd : oracle) (k : nat)
    (turns : list Z) (result_ : list str) : result (list str) :=
  match turns with
  | [] => Ok result_
  | _ :: rest =>
      let key_str := str_tuple isprintable (slice_from result_ (- MARKOV_ORDER)) in
      match dict_get str_eqb rows key_str with
      | None | Some [] => Ok result_
      | Some col =>
          bind (eval col) (fun v =>
          bind (choice (rnd k) (items_of v)) (fun next_word =>
          let result' := result_ ++ [next_word] in
          match next_word with
          | [] => Ok result'
          | _ => generate_loop rows rnd (S k) rest result'
          end))
      end
  end.

(** The list [result] at the end of the loop. *)
Definition generate_tokens (d : db) (rnd : oracle) (max_words : Z)
  : result (list str) :=
  bind (get_random_key d (rnd O)) (fun current_key =>
  generate_loop (chain d) rnd 1 (range max_words) (items_of current_key)).

Definition generate_text (d : db) (rnd : oracle) (max_words : Z)
  : result str :=
  bind (generate_tokens d rnd max_words) (fun result_ =>
  Ok (strip (join (lit " ") result_))).

(** ** [wisdom_command] *)

Record stats_message := {
  sm_total_messages : Z;
  sm_generated_messages : Z;
  sm_chain_count : Z;      (* Total Combinations *)
  sm_chain_size : Z;       (* Markov Chain Size *)
  sm_variability : Q       (* Variability *)
}.

(** [length(next_words) - length(replace(next_words, ',', '')) + 1] *)
Definition commas_plus_one (next_words : str) : Z :=
  len next_words - len (remove_char 44%N next_words) + 1.

(** [SUM(...)] over the rows: [None] (SQL NULL) when there is no row. *)
Definition sql_sum (l : list Z) : option Z :=
  match l with
  | [] => None
  | _ => Some (fold_left Z.add l 0)
  end.

Definition wisdom_command (d : db) : stats_message :=
  let total_messages := get_stat d (lit "total_messages") in
  let generated_messages := get_stat d (lit "generated_messages") in
  let chain_count := len (chain d) in
  let chain_size := sql_sum (map (fun row => commas_plus_one (snd row)) (chain d)) in
  let variability :=
    if chain_count >? 0
    then match chain_size with
         | Some n => (inject_Z n / inject_Z chain_count)%Q
         | None => 0%Q
         end
    else 0%Q in
  {| sm_total_messages := total_messages;
     sm_generated_messages := generated_messages;
     sm_chain_count := chain_count;
     sm_chain_size := match chain_size with Some n => n | None => 0 end;
     sm_variability := variability |}.

(** ** [handle_message] *)

Record Message := {
  text : str;
  chat_type : str
}.

Definition mudrets : str := [1084; 1091; 1076; 1088; 1077; 1094]%N.

Definition trigger_conditions (m : Message) : bool :=
  str_eqb (chat_type m) (lit "private")
  || str_eqb (lower (text m)) mudrets
  || contains (lower (text m)) (lit "@mudrets_robot").

(** The database after the handler, and the reply.  [REPLY_CHANCE] is the
    text of an environment variable, so the comparison
    [random.random() > REPLY_CHANCE] of line 175 raises [TypeError]; it is
    evaluated only when no trigger condition holds. *)
Definition handle_message (m : Message) (rnd : oracle) (d : db)
  : db * result str :=
  let total := get_stat d (lit "total_messages") + 1 in
  let d1 := update_stat d (lit "total_messages") total in
  match build_markov_chain d1 (split (text m)) with
  | Raise e => (d1, Raise e)
  | Ok d2 =>
      if negb (trigger_conditions m) then (d2, Raise TypeError)
      else
        match generate_text d2 rnd MAX_WORDS with
        | Raise e => (d2, Raise e)
        | Ok generated_text =>
            let generated := get_stat d2 (lit "generated_messages") + 1 in
            (update_stat d2 (lit "generated_messages") generated,
             Ok generated_text)
        end
  end.
End WithTables.

End NewBot.

(** The spec's reading of [learn], to compare the loop with: the
    observations of a token sequence are, for every start index [i] from [0]
    to [L - N - 1], the context [tokens[i .. i+N)] with the token
    [tokens[i+N]] that follows it; learning applies [add_observation] to each
    of them in turn. *)
Module LearnSpec.
Import Py.

Definition N : nat := Z.to_nat Markov.MARKOV_ORDER.

Definition observations (tokens : list Markov.Token)
  : list (Markov.Context * Markov.Token) :=
  map (fun i => (firstn N (skipn i tokens), nth (i + N) tokens []))
      (seq 0 (length tokens - N)).

(** [add] stands for the store's [add_observation]. *)
Fixpoint observe_all {S : Type} (add : S -> list str -> str -> result S)
    (store : S) (obs : list (list str * str)) : result S :=
  match obs with
  | [] => Ok store
  | (context, next) :: rest =>
      bind (add store context next) (fun store' =>
      observe_all add store' rest)
  end.

End LearnSpec.

(** Properties of a chain that learning maintains. *)
Module Invariants.
Import Py.

(** The sentinel: the empty string that ends every tokenized message. *)
Definition sentinel : Markov.Token := [].

(** No key contains the sentinel. *)
Definition keys_without_sentinel (chain : Markov.Chain) : Prop :=
  Forall (fun kv => ~ In sentinel (fst kv)) chain.

(** Every key has a successor. *)
Definition successors_nonempty (chain : Markov.Chain) : Prop :=
  Forall (fun kv => snd kv <> []) chain.

(** The keys of a dictionary are pairwise distinct, and their characters are
    code points. *)
Definition well_formed (chain : Markov.Chain) : Prop :=
  NoDup (map fst chain) /\ Forall (fun kv => Forall valid_str (fst kv)) chain.

(** The chain after the messages [texts] were learned in turn, starting from
    [chain]. *)
Fixpoint learn_all (chain : Markov.Chain) (texts : list str)
  : result Markov.Chain :=
  match texts with
  | [] => Ok chain
  | t :: rest =>
      bind (Markov.learn chain (Markov.tokenize t)) (fun chain' =>
      learn_all chain' rest)
  end.

(** [next] was seen right after the window [context] in one of [texts]. *)
Definition observed_in (texts : list str) (context : Markov.Context)
    (next : Markov.Token) : Prop :=
  exists t, In t texts /\
    In (context, next) (LearnSpec.observations (Markov.tokenize t)).

(** The window of at most [n] tokens that precedes position [i] of [out]. *)
Definition window_before (n i : nat) (out : list Markov.Token)
  : Markov.Context :=
  skipn (i - n) (firstn i out).

(** The tokens [suffix] appended to [text] were each drawn from the
    successors of the window before them. *)
Definition drawn_from (chain : Markov.Chain) (text suffix : list Markov.Token) : Prop :=
  forall j, (j < length suffix)%nat ->
    exists successors,
      dict_get tuple_eqb chain
        (window_before LearnSpec.N (length text + j) (text ++ suffix))
      = Some successors
      /\ In (nth j suffix []) successors.

(** Every successor in the chain was observed: it stands in the list of a
    key because [add_observation] was called with that key and token. *)
Definition all_observed (P : Markov.Context -> Markov.Token -> Prop)
    (chain : Markov.Chain) : Prop :=
  forall k successors t, In (k, successors) chain -> In t successors -> P k t.

(** While [eval] reads a text, what it has read so far is made of code
    points. *)
Definition state_valid (st : pstate) : Prop :=
  match st with
  | PStart => True
  | PItem _ items _ | PAfter _ items | PDone _ items _ =>
      Forall valid_str items
  | PLit _ items _ _ out => Forall valid_str items /\ valid_str out
  end.

(** A token as [split] answers it: not empty, without whitespace. *)
Definition word (t : str) : Prop :=
  t <> [] /\ Forall (fun c => isspace c = false) t.

(** ** The rows of [new_bot.py] *)

(** A row as learning writes it: the text of a key without the sentinel,
    and the text of a non-empty list of successors. *)
Definition row_learned (isprintable : char -> bool) (row : str * str) : Prop :=
  exists key successors,
    row = (str_tuple isprintable key, str_list isprintable successors)
    /\ ~ In sentinel key
    /\ successors <> [] /\ Forall valid_str successors.

Definition rows_learned (isprintable : char -> bool)
    (rows : list (str * str)) : Prop :=
  Forall (row_learned isprintable) rows.

(** The tokens [suffix] appended to [text] were each drawn from what the
    row of the window before them evaluates to. *)
Definition drawn_from_rows (isprintable : char -> bool)
    (rows : list (str * str)) (text suffix : list str) : Prop :=
  forall j, (j < length suffix)%nat ->
    exists col v,
      dict_get str_eqb rows
        (str_tuple isprintable
           (window_before LearnSpec.N (length text + j) (text ++ suffix)))
      = Some col
      /\ eval col = Ok v
      /\ In (nth j suffix []) (NewBot.items_of v).

(** ** Further properties of the two stores *)

(** Every key has [MARKOV_ORDER] tokens. *)
Definition keys_of_order (chain : Markov.Chain) : Prop :=
  Forall (fun kv => length (fst kv) = LearnSpec.N) chain.

(** No successor list holds a token twice. *)
Definition successors_distinct (chain : Markov.Chain) : Prop :=
  Forall (fun kv => NoDup (snd kv)) chain.

(** [next] is recorded as a successor of [context]. *)
Definition recorded (chain : Markov.Chain) (context : Markov.Context)
    (next : Markov.Token) : Prop :=
  exists successors,
    dict_get tuple_eqb chain context = Some successors /\ In next successors.

(** The keys and the successors are strings of code points. *)
Definition chain_valid (chain : Markov.Chain) : Prop :=
  Forall (fun kv => Forall valid_str (fst kv) /\ Forall valid_str (snd kv))
         chain.

(** The rows of [new_bot.py] that hold the entries of a chain of
    [markov.py]: the texts of the key and of the successor list. *)
Definition rows_of (isprintable : char -> bool) (chain : Markov.Chain)
  : list (str * str) :=
  map (fun kv => (str_tuple isprintable (fst kv),
                  str_list isprintable (snd kv))) chain.

(** The database after [build_markov_chain] ran on the messages [texts] in
    turn. *)
Fixpoint build_all (isprintable : char -> bool) (d : NewBot.db)
    (texts : list str) : result NewBot.db :=
  match texts with
  | [] => Ok d
  | t :: rest =>
      bind (NewBot.build_markov_chain isprintable d (split t)) (fun d' =>
      build_all isprintable d' rest)
  end.

(** Only the last token of a list can be the sentinel. *)
Definition sentinel_only_last (out : list Markov.Token) : Prop :=
  forall j, (S j < length out)%nat -> nth j out [] <> sentinel.

(** The number of commas of a text. *)
Definition commas (s : str) : nat :=
  length (filter (fun c => (c =? 44)%N) s).

End Invariants.

(** Concrete inputs used to exercise the statements below. *)
Module Examples.
Import Py.

(** A printable table to run the code with. *)
Definition all_printable : char -> bool := fun _ => true.

(** The oracle whose every draw is [0]: the first item is chosen. *)
Definition first_item : oracle := fun _ => O.

(** The chain of [markov.py] after the message "the cat sat". *)
Definition cat_chain : Markov.Chain :=
  [ ([lit "the"; lit "cat"], [lit "sat"]);
    ([lit "cat"; lit "sat"], [[]]) ].

Definition cat_globals : Markov.globals :=
  {| Markov.markov_chain := cat_chain;
     Markov.total_messages := 1;
     Markov.generated_messages := 0 |}.

Definition no_files : Markov.files :=
  {| Markov.CHAIN_FILE := None; Markov.STATS_FILE := None |}.

(** The rows of [new_bot.py] after the message "a b c,": the second word
    after "a b" carries a comma. *)
Definition comma_rows : list (str * str) :=
  [ (lit "('a', 'b')", lit "['c,']");
    (lit "('b', 'c,')", lit "['']") ].

Definition comma_db : NewBot.db :=
  {| NewBot.chain := comma_rows; NewBot.stats := [] |}.

End Examples.

(* ================================================================== *)
(** * Facts about the runtime fragment *)
(* ================================================================== *)

Module PyFacts.
Import Py.

Lemma eqb_list_eq {A} (eqb : A -> A -> bool) :
  (forall x y, eqb x y = true <-> x = y) ->
  forall l1 l2, eqb_list eqb l1 l2 = true <-> l1 = l2.
Proof.
  intros Heqb l1.
  induction l1 as [|x r1 IH]; intros [|y r2]; simpl; split; intro H;
    try reflexivity; try discriminate.
  - apply andb_true_iff in H as [Hxy Hr].
    apply Heqb in Hxy. apply IH in Hr. now subst.
  - injection H as -> ->.
    apply andb_true_iff. split; [now apply Heqb | now apply IH].
Qed.

Lemma str_eqb_eq (s t : str) : str_eqb s t = true <-> s = t.
Proof. apply eqb_list_eq. intros x y. apply N.eqb_eq. Qed.

Lemma tuple_eqb_eq (s t : list str) : tuple_eqb s t = true <-> s = t.
Proof. apply eqb_list_eq. apply str_eqb_eq. Qed.

Lemma str_eqb_refl (s : str) : str_eqb s s = true.
Proof. now apply str_eqb_eq. Qed.

Lemma tuple_eqb_refl (t : list str) : tuple_eqb t t = true.
Proof. now apply tuple_eqb_eq. Qed.

Lemma str_eqb_neq (s t : str) : str_eqb s t = false <-> s <> t.
Proof.
  rewrite <- str_eqb_eq. destruct (str_eqb s t); split; congruence.
Qed.

Lemma tuple_eqb_neq (s t : list str) : tuple_eqb s t = false <-> s <> t.
Proof.
  rewrite <- tuple_eqb_eq. destruct (tuple_eqb s t); split; congruence.
Qed.

Lemma str_in_In (x : str) (l : list str) : str_in x l = true <-> In x l.
Proof.
  unfold str_in. rewrite existsb_exists. split.
  - intros (y & Hy & He). apply str_eqb_eq in He. now subst.
  - intros H. exists x. split; [assumption | apply str_eqb_refl].
Qed.

Lemma str_in_last (x : str) (l : list str) : str_in x (l ++ [x]) = true.
Proof. apply str_in_In, in_or_app. right. now left. Qed.

(** ** Dictionaries *)

Section DictFacts.
Context {K V : Type} (eqb : K -> K -> bool).
Hypothesis eqb_eq : forall x y, eqb x y = true <-> x = y.

Lemma eqb_refl_ x : eqb x x = true.
Proof. now apply eqb_eq. Qed.

Lemma dict_get_set_same (d : list (K * V)) k v :
  dict_get eqb (dict_set eqb d k v) k = Some v.
Proof.
  induction d as [|[k' v'] r IH]; simpl.
  - now rewrite eqb_refl_.
  - destruct (eqb k k') eqn:E; simpl; rewrite E; [reflexivity | exact IH].
Qed.

Lemma dict_get_set_other (d : list (K * V)) k k0 v :
  k0 <> k -> dict_get eqb (dict_set eqb d k v) k0 = dict_get eqb d k0.
Proof.
  intros Hne. induction d as [|[k' v'] r IH]; simpl.
  - destruct (eqb k0 k) eqn:E; [apply eqb_eq in E; contradiction | reflexivity].
  - destruct (eqb k k') eqn:E; simpl.
    + apply eqb_eq in E. subst k'.
      destruct (eqb k0 k) eqn:E0; [apply eqb_eq in E0; contradiction | reflexivity].
    + destruct (eqb k0 k'); [reflexivity | exact IH].
Qed.

Lemma dict_set_set_same (d : list (K * V)) k v v' :
  dict_set eqb (dict_set eqb d k v) k v' = dict_set eqb d k v'.
Proof.
  induction d as [|[k' v0] r IH]; simpl.
  - now rewrite eqb_refl_.
  - destruct (eqb k k') eqn:E; simpl; rewrite E; [reflexivity | now rewrite IH].
Qed.

Lemma dict_set_entries (d : list (K * V)) k v k0 v0 :
  In (k0, v0) (dict_set eqb d k v) ->
  In (k0, v0) d \/ (k0 = k /\ v0 = v).
Proof.
  induction d as [|[k' v'] r IH]; simpl.
  - intros [[= <- <-]|[]]. now right.
  - destruct (eqb k k') eqn:E; simpl.
    + apply eqb_eq in E. subst k'.
      intros [[= <- <-]|H]; [now right | left; now right].
    + intros [H|H]; [left; now left|].
      destruct (IH H) as [H'|H']; [left; now right | now right].
Qed.

Lemma dict_get_In (d : list (K * V)) k v :
  dict_get eqb d k = Some v -> In (k, v) d.
Proof.
  induction d as [|[k' v'] r IH]; simpl; [discriminate|].
  destruct (eqb k k') eqn:E.
  - apply eqb_eq in E. intros [= ->]. subst. now left.
  - intros H. right. now apply IH.
Qed.

Lemma dict_get_None (d : list (K * V)) k :
  dict_get eqb d k = None <-> ~ In k (map fst d).
Proof.
  induction d as [|[k' v'] r IH]; simpl.
  - tauto.
  - destruct (eqb k k') eqn:E.
    + apply eqb_eq in E. subst. split; [discriminate | intros H; exfalso; apply H; now left].
    + rewrite IH. split.
      * intros H [H1 | H1]; [|contradiction].
        subst. rewrite eqb_refl_ in E. discriminate.
      * intros H H1. apply H. now right.
Qed.

(** Assigning to a key that is absent appends the pair. *)
Lemma dict_set_absent (d : list (K * V)) k v :
  dict_get eqb d k = None -> dict_set eqb d k v = d ++ [(k, v)].
Proof.
  induction d as [|[k' v'] r IH]; simpl; [reflexivity|].
  destruct (eqb k k'); [discriminate|].
  intros H. now rewrite IH.
Qed.

Lemma dict_get_app_absent (d : list (K * V)) k v k0 :
  dict_get eqb (d ++ [(k, v)]) k0 =
  match dict_get eqb d k0 with
  | Some x => Some x
  | None => if eqb k0 k then Some v else None
  end.
Proof.
  induction d as [|[k' v'] r IH]; simpl; [reflexivity|].
  destruct (eqb k0 k'); [reflexivity | exact IH].
Qed.

(** Assigning never changes the keys that are there, nor their order. *)
Lemma dict_set_keys_present (d : list (K * V)) k v v0 :
  dict_get eqb d k = Some v0 ->
  map fst (dict_set eqb d k v) = map fst d.
Proof.
  induction d as [|[k' v'] r IH]; simpl; [discriminate|].
  destruct (eqb k k') eqn:E; simpl; [reflexivity|].
  intros H. now rewrite IH.
Qed.


(** A dictionary built from pairs with distinct keys is these pairs. *)
Lemma dict_of_acc (items acc : list (K * V)) :
  NoDup (map fst (acc ++ items)) ->
  fold_left (fun d kv => dict_set eqb d (fst kv) (snd kv)) items acc
  = acc ++ items.
Proof.
  revert acc. induction items as [|[k v] r IH]; intros acc Hnd; simpl.
  - now rewrite app_nil_r.
  - rewrite dict_set_absent.
    + rewrite IH; rewrite <- app_assoc; simpl; [reflexivity | exact Hnd].
    + apply dict_get_None. rewrite map_app in Hnd. simpl in Hnd.
      apply NoDup_remove_2 in Hnd. intros Hin. apply Hnd.
      apply in_or_app. now left.
Qed.

Lemma dict_of_NoDup (items : list (K * V)) :
  NoDup (map fst items) -> dict_of eqb items = items.
Proof. intros H. unfold dict_of. now rewrite dict_of_acc. Qed.
End DictFacts.

(** ** Slices, indices and [range] *)

Lemma clamp_in_range {A} (l : list A) (i : nat) :
  (i <= length l)%nat -> clamp l (Z.of_nat i) = i.
Proof.
  intros H. unfold clamp, len.
  destruct (Z.ltb_spec (Z.of_nat i) 0); lia.
Qed.

Lemma slice_window {A} (l : list A) (i n : nat) :
  (i + n <= length l)%nat ->
  slice l (Z.of_nat i) (Z.of_nat i + Z.of_nat n) = firstn n (skipn i l).
Proof.
  intros H. unfold slice.
  rewrite <- Nat2Z.inj_add.
  rewrite !clamp_in_range by lia.
  f_equal. lia.
Qed.

Lemma index_in_range {A} (l : list A) (i : nat) (d : A) :
  (i < length l)%nat -> index l (Z.of_nat i) = Ok (nth i l d).
Proof.
  intros H. unfold index.
  destruct (Z.ltb_spec (Z.of_nat i) 0) as [Hneg|_]; [lia|].
  destruct (Z.ltb_spec (Z.of_nat i) 0) as [Hneg|_]; [lia|].
  rewrite Nat2Z.id, (nth_error_nth' l d H). reflexivity.
Qed.

(** [l[-n:]]: the last [n] items, or all of [l] when it is shorter. *)
Lemma slice_from_last {A} (l : list A) (n : nat) :
  (0 < n)%nat ->
  slice_from l (- Z.of_nat n) = skipn (length l - n) l.
Proof.
  intros Hn. unfold slice_from, clamp, len. f_equal.
  destruct (Z.ltb_spec (- Z.of_nat n) 0); lia.
Qed.

Lemma range_length (n : Z) : length (range n) = Z.to_nat n.
Proof. unfold range. now rewrite length_map, length_seq. Qed.

Lemma range_nonpositive (n : Z) : n <= 0 -> range n = [].
Proof.
  intros H. unfold range.
  replace (Z.to_nat n) with O by lia. reflexivity.
Qed.

Lemma choice_In {A} (r : nat) (l : list A) (x : A) :
  choice r l = Ok x -> In x l.
Proof.
  unfold choice.
  destruct (nth_error l (r mod length l)) eqn:E; [|discriminate].
  intros [= ->]. eapply nth_error_In; eauto.
Qed.

Lemma choice_nonempty {A} (r : nat) (l : list A) :
  l <> [] -> exists x, choice r l = Ok x.
Proof.
  intros Hne. unfold choice.
  destruct (nth_error l (r mod length l)) eqn:E; [eauto|].
  apply nth_error_None in E.
  assert (length l <> 0)%nat by (destruct l; simpl; congruence).
  pose proof (Nat.mod_upper_bound r (length l) H). lia.
Qed.

Lemma choice_raises {A} (r : nat) (l : list A) (e : exn) :
  choice r l = Raise e -> e = IndexError /\ l = [].
Proof.
  intros H. destruct l as [|x l'].
  - split; [|reflexivity]. unfold choice in H.
    destruct (nth_error _ _); congruence.
  - destruct (choice_nonempty r (x :: l') ltac:(discriminate)) as (w & Hw).
    congruence.
Qed.

End PyFacts.

(* ================================================================== *)
(** * [markov.py]: learning *)
(* ================================================================== *)

Module MarkovFacts.
Import Py PyFacts Markov.

Lemma getitem_set_same {V} (d : list (Context * V)) k v :
  getitem (dict_set tuple_eqb d k v) k = Ok v.
Proof.
  unfold getitem. now rewrite (dict_get_set_same _ tuple_eqb_eq).
Qed.

(** What [add_observation] answers, case by case. *)
Lemma add_observation_cases (chain : Chain) (key : Context) (next : Token) :
  add_observation chain key next =
  Ok (match dict_get tuple_eqb chain key with
      | None => chain ++ [(key, [next])]
      | Some successors =>
          if str_in next successors then chain
          else dict_set tuple_eqb chain key (successors ++ [next])
      end).
Proof.
  unfold add_observation, dict_mem.
  destruct (dict_get tuple_eqb chain key) as [successors|] eqn:E.
  - unfold getitem. rewrite E. simpl.
    now destruct (str_in next successors).
  - rewrite getitem_set_same. simpl.
    rewrite (dict_set_set_same _ tuple_eqb_eq).
    now rewrite dict_set_absent by assumption.
Qed.

(** After an observation the key is there, and the token is among its
    successors. *)
Lemma add_observation_recorded (chain chain' : Chain) key next :
  add_observation chain key next = Ok chain' ->
  exists successors,
    dict_get tuple_eqb chain' key = Some successors /\ In next successors.
Proof.
  rewrite add_observation_cases. intros [= <-].
  destruct (dict_get tuple_eqb chain key) as [successors|] eqn:E.
  - destruct (str_in next successors) eqn:Hin.
    + exists successors. split; [assumption | now apply str_in_In].
    + exists (successors ++ [next]). split.
      * apply (dict_get_set_same _ tuple_eqb_eq).
      * apply in_or_app. right. now left.
  - exists [next]. split; [|now left].
    rewrite dict_get_app_absent, E. now rewrite tuple_eqb_refl.
Qed.

(** A second, identical observation changes nothing. *)
Lemma add_observation_again (chain chain' : Chain) key next :
  add_observation chain key next = Ok chain' ->
  add_observation chain' key next = Ok chain'.
Proof.
  intros H. destruct (add_observation_recorded _ _ _ _ H) as (succ & Hget & Hin).
  rewrite add_observation_cases, Hget.
  apply str_in_In in Hin. now rewrite Hin.
Qed.

(** ** The loop of [learn] *)

Lemma learn_iter_in_range (chain : Chain) (text : list Token) (i : nat) :
  (i + LearnSpec.N < length text)%nat ->
  learn_iter chain text (Z.of_nat i) =
  add_observation chain (firstn LearnSpec.N (skipn i text))
                  (nth (i + LearnSpec.N) text []).
Proof.
  intros H. unfold learn_iter.
  change MARKOV_ORDER with (Z.of_nat LearnSpec.N).
  rewrite slice_window by lia.
  rewrite <- Nat2Z.inj_add.
  now rewrite (index_in_range text (i + LearnSpec.N) []) by assumption.
Qed.

Lemma learn_loop_observe_all (text : list Token) (idxs : list nat) :
  Forall (fun i => (i + LearnSpec.N < length text)%nat) idxs ->
  forall chain,
    learn_loop chain text (map Z.of_nat idxs) =
    LearnSpec.observe_all add_observation chain
      (map (fun i => (firstn LearnSpec.N (skipn i text),
                      nth (i + LearnSpec.N) text [])) idxs).
Proof.
  induction 1 as [|i idxs Hi Hr IH]; intros chain; simpl; [reflexivity|].
  rewrite learn_iter_in_range by assumption.
  destruct (add_observation chain _ _); simpl; [apply IH | reflexivity].
Qed.

Lemma learn_observe_all (chain : Chain) (text : list Token) :
  learn chain text = LearnSpec.observe_all add_observation chain (LearnSpec.observations text).
Proof.
  unfold learn, range, LearnSpec.observations.
  replace (Z.to_nat (len text - MARKOV_ORDER))
    with (length text - LearnSpec.N)%nat
    by (unfold len, MARKOV_ORDER, LearnSpec.N; simpl; lia).
  apply learn_loop_observe_all.
  apply Forall_forall. intros i Hi. apply in_seq in Hi. lia.
Qed.

Lemma observe_all_total (obs : list (Context * Token)) :
  forall chain, exists chain', LearnSpec.observe_all add_observation chain obs = Ok chain'.
Proof.
  induction obs as [|[k t] r IH]; intros chain; simpl; [eauto|].
  rewrite add_observation_cases. simpl. apply IH.
Qed.

Lemma learn_total (chain : Chain) (text : list Token) :
  exists chain', learn chain text = Ok chain'.
Proof. rewrite learn_observe_all. apply observe_all_total. Qed.

Lemma observations_length (text : list Token) :
  length (LearnSpec.observations text) = (length text - LearnSpec.N)%nat.
Proof. unfold LearnSpec.observations. now rewrite length_map, length_seq. Qed.

Lemma observations_nth (text : list Token) (i : nat) :
  (i + LearnSpec.N < length text)%nat ->
  nth_error (LearnSpec.observations text) i =
  Some (firstn LearnSpec.N (skipn i text), nth (i + LearnSpec.N) text []).
Proof.
  intros H. unfold LearnSpec.observations.
  rewrite nth_error_map, nth_error_seq.
  destruct (Nat.ltb_spec i (length text - LearnSpec.N)); [reflexivity | lia].
Qed.

Lemma window_length (text : list Token) (i : nat) :
  (i + LearnSpec.N < length text)%nat ->
  length (firstn LearnSpec.N (skipn i text)) = LearnSpec.N.
Proof. intros H. rewrite length_firstn, length_skipn. lia. Qed.

End MarkovFacts.

(* ================================================================== *)
(** * [eval] undoes [str] *)
(* ================================================================== *)

Module ReprFacts.
Import Py PyFacts.

(** Case analysis on the comparisons of code points in a goal. *)
Ltac ncases :=
  repeat match goal with
    | |- context [(?a =? ?b)%N] => destruct (N.eqb_spec a b)
    | |- context [(?a <? ?b)%N] => destruct (N.ltb_spec a b)
    | |- context [(?a <=? ?b)%N] => destruct (N.leb_spec a b)
    end; cbn [andb orb negb]; try lia.

Lemma hexval_hexdigit (d : N) : (d < 16)%N -> hexval (hexdigit d) = Some d.
Proof.
  intros H. unfold hexdigit.
  destruct (N.ltb_spec d 10); unfold hexval; ncases; f_equal; lia.
Qed.

Lemma run_app (st : pstate) (a b : str) :
  run st (a ++ b) =
  match run st a with
  | Some st' => run st' b
  | None => None
  end.
Proof.
  revert st. induction a as [|c a IH]; intros st; simpl; [reflexivity|].
  destruct (pstep st c); [apply IH | reflexivity].
Qed.

Section Literal.
Variables (close : char) (items : list str) (q : char).

(** Reading back [w] hexadecimal digits. *)
Lemma run_hex (w : nat) : forall (acc n : N) (out rest : str),
  (n < 16 ^ N.of_nat (S w))%N ->
  (acc * 16 ^ N.of_nat (S w) + n < 1114112)%N ->
  run (PLit close items q (Hex (S w) acc) out) (hex_fixed (S w) n ++ rest)
  = run (PLit close items q Plain (out ++ [acc * 16 ^ N.of_nat (S w) + n]%N)) rest.
Proof.
  induction w as [|w IH]; intros acc n out rest Hn Hv.
  - change (16 ^ N.of_nat 1)%N with 16%N in *.
    cbn [hex_fixed app run pstep lex_step].
    change (16 ^ N.of_nat 0)%N with 1%N.
    rewrite N.div_1_r, hexval_hexdigit by assumption.
    destruct (N.ltb_spec (acc * 16 + n) 1114112); [reflexivity | lia].
  - remember (S w) as w1 eqn:Ew1.
    assert (Hw1 : (0 < w1)%nat) by lia.
    assert (Hpow : (16 ^ N.of_nat (S w1) = 16 * 16 ^ N.of_nat w1)%N).
    { rewrite Nat2N.inj_succ. apply N.pow_succ_r'. }
    assert (Hpos : (0 < 16 ^ N.of_nat w1)%N).
    { apply N.neq_0_lt_0, N.pow_nonzero. discriminate. }
    cbn [hex_fixed app run pstep lex_step].
    assert (Hd : (n / 16 ^ N.of_nat w1 < 16)%N).
    { apply N.Div0.div_lt_upper_bound. lia. }
    rewrite hexval_hexdigit by assumption.
    clear Ew1. destruct w1 as [|w2]; [lia|]. cbn iota beta.
    set (P := (16 ^ N.of_nat (S w2))%N) in *.
    assert (Heq : ((acc * 16 + n / P) * P + n mod P
                   = acc * 16 ^ N.of_nat (S (S w2)) + n)%N).
    { rewrite Hpow. rewrite (N.div_mod n P) at 3 by lia. ring. }
    rewrite IH.
    + now rewrite Heq.
    + apply N.mod_lt. lia.
    + now rewrite Heq.
Qed.

Variable isprintable : char -> bool.
Hypothesis q_quote : q = 39%N \/ q = 34%N.

(** Decide the comparisons met while the automaton reads a text. *)
Ltac reads :=
  repeat (cbn [app run pstep lex_step andb orb negb];
          match goal with
          | |- context [(?a =? ?b)%N] => destruct (N.eqb_spec a b)
          | |- context [(?a <? ?b)%N] => destruct (N.ltb_spec a b)
          | |- context [(?a <=? ?b)%N] => destruct (N.leb_spec a b)
          end; try lia);
  cbn [app run pstep lex_step andb orb negb].

(** Reading back one character of a literal. *)
Lemma run_repr_char (c : char) (out rest : str) :
  valid_char c ->
  run (PLit close items q Plain out) (repr_char isprintable q c ++ rest)
  = run (PLit close items q Plain (out ++ [c])) rest.
Proof.
  unfold valid_char. intros Hc. unfold repr_char.
  destruct (N.eqb_spec c q) as [Hcq|Hcq]; cbn [orb].
  { subst c. destruct q_quote as [Hq|Hq]; rewrite Hq in *; reflexivity. }
  destruct (N.eqb_spec c 92) as [Hb|Hb].
  { subst c. destruct q_quote as [Hq|Hq]; rewrite Hq in *; reflexivity. }
  destruct (N.eqb_spec c 9) as [->|H9].
  { destruct q_quote as [Hq|Hq]; rewrite Hq in *; reflexivity. }
  destruct (N.eqb_spec c 10) as [->|H10].
  { destruct q_quote as [Hq|Hq]; rewrite Hq in *; reflexivity. }
  destruct (N.eqb_spec c 13) as [->|H13].
  { destruct q_quote as [Hq|Hq]; rewrite Hq in *; reflexivity. }
  assert (Hx : (c < 256)%N ->
            run (PLit close items q Plain out)
                ((92 :: 120 :: hex_fixed 2 c) ++ rest)%N
            = run (PLit close items q Plain (out ++ [c])) rest).
  { intros Hlt. reads. rewrite (run_hex 1) by (cbn; lia). reflexivity. }
  assert (Hplain : run (PLit close items q Plain out) ([c] ++ rest)
                   = run (PLit close items q Plain (out ++ [c])) rest).
  { cbn [app run pstep lex_step].
    destruct (N.eqb_spec c q); [contradiction|].
    destruct (N.eqb_spec c 92); [contradiction|]. reflexivity. }
  destruct ((c <? 32) || (c =? 127))%N eqn:Ectl.
  { apply Hx. apply orb_true_iff in Ectl as [H|H].
    - apply N.ltb_lt in H. lia.
    - apply N.eqb_eq in H. lia. }
  destruct (c <? 127)%N; [exact Hplain|].
  destruct (isprintable c); [exact Hplain|].
  destruct (N.leb_spec c 255) as [H255|H255]; [apply Hx; lia|].
  destruct (N.leb_spec c 65535) as [Hu|Hu].
  - reads. rewrite (run_hex 3) by (cbn; lia). reflexivity.
  - reads. rewrite (run_hex 7) by (cbn; lia). reflexivity.
Qed.
End Literal.

Section Displays.
Variable isprintable : char -> bool.
Variables (close : char).
Hypothesis close_bracket : close = 41%N \/ close = 93%N.

Lemma quote_of_cases (s : str) : quote_of s = 39%N \/ quote_of s = 34%N.
Proof. unfold quote_of. destruct (_ && _); auto. Qed.

Lemma run_literal_body (items : list str) (q : char) (s : str) :
  q = 39%N \/ q = 34%N -> valid_str s ->
  forall out rest,
    run (PLit close items q Plain out)
        (flat_map (repr_char isprintable q) s ++ rest)
    = run (PLit close items q Plain (out ++ s)) rest.
Proof.
  intros Hq Hs. induction Hs as [|c s Hc Hs IH]; intros out rest.
  - now rewrite app_nil_r.
  - cbn [flat_map]. rewrite <- app_assoc.
    rewrite run_repr_char by assumption.
    rewrite IH. now rewrite <- app_assoc.
Qed.

(** Reading back a string literal. *)
Lemma run_repr_str (items : list str) (comma : bool) (s rest : str) :
  valid_str s ->
  run (PItem close items comma) (repr_str isprintable s ++ rest)
  = run (PAfter close (items ++ [s])) rest.
Proof.
  intros Hs. unfold repr_str.
  pose proof (quote_of_cases s) as Hq.
  set (q := quote_of s) in *.
  cbn [app run].
  assert (Hopen : pstep (PItem close items comma) q
                  = Some (PLit close items q Plain [])).
  { cbn [pstep].
    destruct Hq as [-> | ->], close_bracket as [-> | ->]; reflexivity. }
  rewrite Hopen. rewrite <- app_assoc.
  rewrite run_literal_body by assumption.
  cbn [app run pstep lex_step]. now rewrite N.eqb_refl.
Qed.

(** Reading back a comma-separated sequence of literals. *)
Lemma run_join (l : list str) : l <> [] -> Forall valid_str l ->
  forall items comma rest,
    run (PItem close items comma)
        (join comma_space (map (repr_str isprintable) l) ++ rest)
    = run (PAfter close (items ++ l)) rest.
Proof.
  induction l as [|x r IH]; intros Hne Hv items comma rest; [congruence|].
  inversion Hv as [|? ? Hx Hr]; subst.
  destruct r as [|y r'].
  - cbn [map join]. now apply run_repr_str.
  - change (join comma_space (map (repr_str isprintable) (x :: y :: r')))
      with (repr_str isprintable x ++ comma_space
            ++ join comma_space (map (repr_str isprintable) (y :: r'))).
    rewrite <- !app_assoc. rewrite run_repr_str by assumption.
    unfold comma_space. cbn [app run].
    assert (Hcomma : pstep (PAfter close (items ++ [x])) 44%N
                     = Some (PItem close (items ++ [x]) true)).
    { cbn [pstep]. destruct close_bracket as [-> | ->]; reflexivity. }
    rewrite Hcomma.
    assert (Hsp : pstep (PItem close (items ++ [x]) true) 32%N
                  = Some (PItem close (items ++ [x]) true)) by reflexivity.
    rewrite Hsp. rewrite IH by (assumption || discriminate).
    now rewrite <- app_assoc.
Qed.
End Displays.

(** [eval(str(t))] is [t], for a tuple of strings. *)
Lemma eval_str_tuple (isprintable : char -> bool) (t : list str) :
  Forall valid_str t -> eval (str_tuple isprintable t) = Ok (VTuple t).
Proof.
  intros Hv. unfold eval.
  destruct t as [|x [|y r]].
  - reflexivity.
  - unfold str_tuple. cbn [app run pstep N.eqb Pos.eqb].
    inversion Hv; subst.
    rewrite (run_repr_str isprintable 41%N) by auto.
    reflexivity.
  - unfold str_tuple. cbn [app run pstep N.eqb Pos.eqb].
    rewrite (run_join isprintable 41%N) by (auto || discriminate).
    reflexivity.
Qed.

(** [eval(str(l))] is [l], for a list of strings. *)
Lemma eval_str_list (isprintable : char -> bool) (l : list str) :
  Forall valid_str l -> eval (str_list isprintable l) = Ok (VList l).
Proof.
  intros Hv. unfold eval, str_list.
  destruct l as [|x r].
  - reflexivity.
  - cbn [app run pstep N.eqb Pos.eqb].
    rewrite (run_join isprintable 93%N) by (auto || discriminate).
    reflexivity.
Qed.

(** So [str] is one-to-one on tuples of strings. *)
Lemma str_tuple_inj (isprintable : char -> bool) (t1 t2 : list str) :
  Forall valid_str t1 -> Forall valid_str t2 ->
  str_tuple isprintable t1 = str_tuple isprintable t2 -> t1 = t2.
Proof.
  intros H1 H2 E.
  pose proof (eval_str_tuple isprintable t1 H1) as E1.
  rewrite E, (eval_str_tuple isprintable t2 H2) in E1.
  congruence.
Qed.

End ReprFacts.

(* ================================================================== *)
(** * [markov.py]: persistence *)
(* ================================================================== *)

Module PersistenceFacts.
Import Py PyFacts ReprFacts Markov.

Section RoundTrip.
Variable isprintable : char -> bool.

Abbreviation serialize := (Markov.serialize isprintable).

Lemma eval_key_str_tuple (t : Context) :
  Forall valid_str t -> eval_key (str_tuple isprintable t) = Ok t.
Proof. intros H. unfold eval_key. now rewrite eval_str_tuple. Qed.

(** Distinct tuples are written as distinct texts. *)
Lemma serialized_keys_NoDup (chain : Chain) :
  Forall (fun kv => Forall valid_str (fst kv)) chain ->
  NoDup (map fst chain) ->
  NoDup (map fst (map serialize chain)).
Proof.
  induction chain as [|[k v] r IH]; intros Hv Hnd; simpl; [constructor|].
  inversion Hv as [|? ? Hk Hr]; subst.
  inversion Hnd as [|? ? Hnotin Hnd']; subst.
  constructor; [|now apply IH].
  intros Hin. apply Hnotin.
  rewrite map_map in Hin. apply in_map_iff in Hin as ([k' v'] & E & Hin').
  simpl in E. rewrite Forall_forall in Hr.
  apply str_tuple_inj in E; [|exact (Hr _ Hin') | exact Hk].
  subst k'. apply in_map_iff. now exists (k, v').
Qed.

(** Reading the keys back rebuilds the dictionary, entry by entry. *)
Lemma eval_keys_serialized (items : Chain) : forall acc : Chain,
  Forall (fun kv => Forall valid_str (fst kv)) items ->
  NoDup (map fst (acc ++ items)) ->
  eval_keys (map serialize items) acc = Ok (acc ++ items).
Proof.
  induction items as [|[k v] r IH]; intros acc Hv Hnd; simpl.
  - now rewrite app_nil_r.
  - inversion Hv as [|? ? Hk Hr]; subst. simpl in Hk.
    rewrite eval_key_str_tuple by assumption. simpl.
    rewrite dict_set_absent.
    + rewrite IH.
      * now rewrite <- app_assoc.
      * assumption.
      * now rewrite <- app_assoc.
    + apply (dict_get_None _ tuple_eqb_eq).
      rewrite map_app in Hnd. simpl in Hnd.
      apply NoDup_remove_2 in Hnd. intros Hin. apply Hnd.
      apply in_or_app. now left.
Qed.

Lemma load_after_save (g : globals) (fs : files) :
  NoDup (map fst (markov_chain g)) ->
  Forall (fun kv => Forall valid_str (fst kv)) (markov_chain g) ->
  load_markov_chain (save_markov_chain isprintable g fs) = Ok g.
Proof.
  intros Hnd Hv. destruct g as [chain total generated]. simpl in *.
  unfold load_markov_chain, save_markov_chain. cbn [CHAIN_FILE STATS_FILE markov_chain total_messages generated_messages].
    pose proof (serialized_keys_NoDup chain Hv Hnd) as Hnd'.
  rewrite !(dict_of_NoDup _ str_eqb_eq (map serialize chain)) by assumption.
  rewrite eval_keys_serialized by assumption.
  reflexivity.
Qed.
End RoundTrip.

End PersistenceFacts.

(* ================================================================== *)
(** * [markov.py]: generation *)
(* ================================================================== *)

Module GenerateFacts.
Import Py PyFacts Markov Invariants.

(** [text[-MARKOV_ORDER:]] is the window before the end of [text]. *)
Lemma lookup_window (text : list Token) :
  slice_from text (- MARKOV_ORDER)
  = window_before LearnSpec.N (length text) text.
Proof.
  unfold window_before. rewrite firstn_all.
  change MARKOV_ORDER with (Z.of_nat LearnSpec.N).
  apply slice_from_last. unfold LearnSpec.N. simpl. lia.
Qed.

Lemma window_before_app (n i : nat) (a b : list Token) :
  (i <= length a)%nat ->
  window_before n i (a ++ b) = window_before n i a.
Proof.
  intros H. unfold window_before. f_equal.
  rewrite firstn_app. replace (i - length a)%nat with O by lia.
  simpl. now rewrite app_nil_r.
Qed.

(** What the loop answers when it answers: the text it was given, followed
    by at most one drawn token per turn. *)
Lemma generate_loop_sound (chain : Chain) (rnd : oracle) (turns : list Z) :
  forall k text out,
    generate_loop chain rnd k turns text = Ok out ->
    exists suffix,
      out = text ++ suffix
      /\ (length suffix <= length turns)%nat
      /\ drawn_from chain text suffix.
Proof.
  induction turns as [|t rest IH]; intros k text out H; cbn [generate_loop] in H.
  - injection H as <-. exists []. rewrite app_nil_r.
    repeat split; [simpl; lia|]. intros j Hj. simpl in Hj. lia.
  - destruct (dict_get tuple_eqb chain (slice_from text (- MARKOV_ORDER)))
      as [successors|] eqn:Hget.
    + destruct (choice (rnd k) successors) as [w|] eqn:Hc; simpl in H;
        [|discriminate].
      apply IH in H as (suffix & -> & Hlen & Hdrawn).
      exists (w :: suffix). rewrite <- app_assoc.
      repeat split; [simpl; lia|].
      intros [|j] Hj.
      * exists successors. split; [|simpl; eapply choice_In; eauto].
        rewrite Nat.add_0_r, window_before_app by lia.
        now rewrite <- lookup_window.
      * simpl in Hj. destruct (Hdrawn j ltac:(lia)) as (succ & Hg & Hin).
        exists succ. split; [|exact Hin].
        rewrite <- Hg. rewrite <- app_assoc, length_app. simpl.
        do 2 f_equal. lia.
    + injection H as <-. exists []. rewrite app_nil_r.
      repeat split; [simpl; lia|]. intros j Hj. simpl in Hj. lia.
Qed.

(** The loop can only stop on an exception at a key without successors. *)
Lemma generate_loop_total (chain : Chain) (rnd : oracle) (turns : list Z) :
  successors_nonempty chain ->
  forall k text, exists out, generate_loop chain rnd k turns text = Ok out.
Proof.
  intros Hne. induction turns as [|t rest IH]; intros k text; cbn [generate_loop]; [eauto|].
  destruct (dict_get tuple_eqb chain (slice_from text (- MARKOV_ORDER)))
    as [successors|] eqn:Hget; [|eauto].
  apply (dict_get_In _ tuple_eqb_eq) in Hget.
  unfold successors_nonempty in Hne. rewrite Forall_forall in Hne.
  apply Hne in Hget. simpl in Hget.
  destruct (choice_nonempty (rnd k) successors Hget) as (w & ->). simpl.
  apply IH.
Qed.

Lemma generate_loop_raises (chain : Chain) (rnd : oracle) (turns : list Z) :
  forall k text e,
    generate_loop chain rnd k turns text = Raise e ->
    e = IndexError /\ exists key, dict_get tuple_eqb chain key = Some [].
Proof.
  induction turns as [|t rest IH]; intros k text e H; cbn [generate_loop] in H; [discriminate|].
  destruct (dict_get tuple_eqb chain (slice_from text (- MARKOV_ORDER)))
    as [successors|] eqn:Hget; [|discriminate].
  destruct (choice (rnd k) successors) as [w|e'] eqn:Hc; simpl in H.
  - eapply IH; eauto.
  - injection H as <-. apply choice_raises in Hc as [-> ->]. eauto.
Qed.

(** The loop stops at once when the window is not a key. *)
Lemma generate_loop_absent (chain : Chain) (rnd : oracle) (turns : list Z)
    (k : nat) (text : list Token) :
  dict_get tuple_eqb chain (slice_from text (- MARKOV_ORDER)) = None ->
  generate_loop chain rnd k turns text = Ok text.
Proof.
  intros H. destruct turns; cbn [generate_loop]; [reflexivity | now rewrite H].
Qed.

(** A window that ends with the sentinel is not a key of a chain whose keys
    are free of it. *)
Lemma window_with_sentinel_absent (chain : Chain) (text : list Token) :
  keys_without_sentinel chain ->
  dict_get tuple_eqb chain (slice_from (text ++ [sentinel]) (- MARKOV_ORDER))
  = None.
Proof.
  intros Hk.
  destruct (dict_get _ _ _) as [successors|] eqn:Hget; [|reflexivity].
  exfalso. apply (dict_get_In _ tuple_eqb_eq) in Hget.
  unfold keys_without_sentinel in Hk. rewrite Forall_forall in Hk.
  apply Hk in Hget. apply Hget. simpl.
  rewrite lookup_window. unfold window_before.
  rewrite firstn_all, length_app. simpl.
  rewrite skipn_app.
  apply in_or_app. right.
  replace (length text + 1 - LearnSpec.N - length text)%nat with O
    by (unfold LearnSpec.N; simpl; lia).
  now left.
Qed.

Lemma generate_loop_after_sentinel (chain : Chain) (rnd : oracle)
    (turns : list Z) (k : nat) (text : list Token) :
  keys_without_sentinel chain ->
  generate_loop chain rnd k turns (text ++ [sentinel])
  = Ok (text ++ [sentinel]).
Proof.
  intros Hk. apply generate_loop_absent.
  now apply window_with_sentinel_absent.
Qed.

End GenerateFacts.

(* ================================================================== *)
(** * [markov.py]: what learning maintains *)
(* ================================================================== *)

Module LearnInvariants.
Import Py PyFacts Markov Invariants MarkovFacts.

(** ** The tokenizer *)

Lemma split_from_tokens (P : str -> Prop) (s : str) : forall cur,
  (cur <> [] -> forall rest, P (cur ++ rest)) ->
  (forall t, t <> [] -> P t) ->
  Forall P (split_from cur s).
Proof.
  induction s as [|c r IH]; intros cur Hcur Hall; simpl.
  - destruct cur as [|x cur']; constructor; [|constructor].
    rewrite <- (app_nil_r (x :: cur')). now apply Hcur.
  - destruct (isspace c).
    + destruct cur as [|x cur'].
      * apply IH; [congruence | assumption].
      * constructor.
        -- rewrite <- (app_nil_r (x :: cur')). now apply Hcur.
        -- apply IH; [congruence | assumption].
    + apply IH; [|assumption].
      intros _ rest. apply Hall. now destruct cur.
Qed.

(** [split] never answers an empty token. *)
Lemma split_nonempty (s : str) : Forall (fun t => t <> sentinel) (split s).
Proof.
  unfold split.
  apply (split_from_tokens (fun t => t <> sentinel)).
  - congruence.
  - auto.
Qed.

(** The characters of the tokens are characters of the text, none of them
    whitespace. *)
Lemma split_from_chars (Q : char -> Prop) (s : str) : forall cur,
  Forall Q cur ->
  (forall c, In c s -> isspace c = false -> Q c) ->
  Forall (Forall Q) (split_from cur s).
Proof.
  induction s as [|c r IH]; intros cur Hcur Hs; simpl.
  - destruct cur; [constructor|]. constructor; [assumption | constructor].
  - destruct (isspace c) eqn:Hsp.
    + assert (Hr : Forall (Forall Q) (split_from [] r)).
      { apply IH; [constructor|]. intros d Hd. apply Hs. now right. }
      destruct cur; [assumption | now constructor].
    + apply IH.
      * apply Forall_app. split; [assumption|].
        constructor; [|constructor]. apply Hs; [now left | assumption].
      * intros d Hd. apply Hs. now right.
Qed.

Lemma split_valid (s : str) : valid_str s -> Forall valid_str (split s).
Proof.
  intros Hs. apply split_from_chars; [constructor|].
  intros c Hc _. unfold valid_str in Hs. rewrite Forall_forall in Hs. auto.
Qed.

Lemma split_no_space (s : str) :
  Forall (Forall (fun c => isspace c = false)) (split s).
Proof. apply split_from_chars; [constructor | auto]. Qed.

(** ** The windows of a tokenized message *)

Lemma window_of_tokenized (tokens : list Token) (i : nat) :
  (i + LearnSpec.N < length (tokens ++ [sentinel]))%nat ->
  firstn LearnSpec.N (skipn i (tokens ++ [sentinel]))
  = firstn LearnSpec.N (skipn i tokens).
Proof.
  rewrite length_app. cbn [length]. intros H.
  rewrite skipn_app, firstn_app, length_skipn.
  replace (LearnSpec.N - (length tokens - i))%nat with O by lia.
  rewrite firstn_O. now rewrite app_nil_r.
Qed.

Lemma In_window {A} (n i : nat) (l : list A) (x : A) :
  In x (firstn n (skipn i l)) -> In x l.
Proof.
  intros H. rewrite <- (firstn_skipn i l). apply in_or_app. right.
  rewrite <- (firstn_skipn n (skipn i l)). apply in_or_app. now left.
Qed.

(** No window of a tokenized message contains the sentinel. *)
Lemma observations_without_sentinel (message_text : str) :
  Forall (fun o => ~ In sentinel (fst o))
         (LearnSpec.observations (tokenize message_text)).
Proof.
  unfold LearnSpec.observations, tokenize.
  apply Forall_forall. intros o Ho.
  apply in_map_iff in Ho as (i & <- & Hi). apply in_seq in Hi. cbn [fst].
  change (@nil N) with sentinel in *.
  rewrite (window_of_tokenized (split message_text) i) by lia.
  intros Hin. apply In_window in Hin.
  pose proof (split_nonempty message_text) as Hs.
  rewrite Forall_forall in Hs. now apply (Hs _ Hin).
Qed.

(** ** One observation *)

(** The entries after an observation: the old ones, or the entry of the
    key with the new token at the end of its list. *)
Lemma add_observation_entries (chain chain' : Chain) key next :
  add_observation chain key next = Ok chain' ->
  forall k v, In (k, v) chain' ->
    In (k, v) chain
    \/ (k = key /\ exists old, (old = [] \/ In (key, old) chain)
                               /\ v = old ++ [next]).
Proof.
  rewrite add_observation_cases. intros [= <-] k v Hin.
  destruct (dict_get tuple_eqb chain key) as [successors|] eqn:E.
  - destruct (str_in next successors); [now left|].
    apply (dict_set_entries _ tuple_eqb_eq) in Hin as [H|[-> ->]];
      [now left|].
    right. split; [reflexivity|]. exists successors. split; [|reflexivity].
    right. now apply (dict_get_In _ tuple_eqb_eq).
  - apply in_app_or in Hin as [H|[[= <- <-]|[]]]; [now left|].
    right. split; [reflexivity|]. exists []. split; [now left | reflexivity].
Qed.

Lemma add_observation_keys (chain chain' : Chain) key next :
  add_observation chain key next = Ok chain' ->
  map fst chain' =
  if dict_mem tuple_eqb chain key then map fst chain
  else map fst chain ++ [key].
Proof.
  rewrite add_observation_cases. intros [= <-]. unfold dict_mem.
  destruct (dict_get tuple_eqb chain key) as [successors|] eqn:E.
  - destruct (str_in next successors); [reflexivity|].
    eapply dict_set_keys_present; eauto.
  - now rewrite map_app.
Qed.

Lemma add_observation_keys_P (P : Context -> Prop) (chain chain' : Chain)
    key next :
  add_observation chain key next = Ok chain' ->
  P key -> Forall P (map fst chain) -> Forall P (map fst chain').
Proof.
  intros H Hkey Hall. rewrite (add_observation_keys _ _ _ _ H).
  destruct (dict_mem tuple_eqb chain key); [assumption|].
  apply Forall_app. split; [assumption | now constructor].
Qed.

Lemma add_observation_NoDup (chain chain' : Chain) key next :
  add_observation chain key next = Ok chain' ->
  NoDup (map fst chain) -> NoDup (map fst chain').
Proof.
  intros H Hnd. rewrite (add_observation_keys _ _ _ _ H).
  unfold dict_mem.
  destruct (dict_get tuple_eqb chain key) eqn:E; [assumption|].
  apply (dict_get_None _ tuple_eqb_eq) in E.
  apply NoDup_app; [assumption | repeat constructor; auto | ].
  intros x Hx [<-|[]]. contradiction.
Qed.

Lemma add_observation_successors (chain chain' : Chain) key next :
  add_observation chain key next = Ok chain' ->
  successors_nonempty chain -> successors_nonempty chain'.
Proof.
  intros H Hne. unfold successors_nonempty in *.
  rewrite Forall_forall in *. intros [k v] Hin.
  destruct (add_observation_entries _ _ _ _ H _ _ Hin)
    as [Hold|(-> & old & _ & ->)].
  - now apply (Hne _ Hold).
  - simpl. now destruct old.
Qed.

(** ** A whole message, and a sequence of messages *)

(** A property of the store that every single observation satisfying [Q]
    maintains is maintained by [observe_all]. *)
Lemma observe_all_invariant {S : Type}
    (add : S -> list str -> str -> result S)
    (I : S -> Prop) (Q : list str * str -> Prop) :
  (forall store store' key next,
     I store -> Q (key, next) ->
     add store key next = Ok store' -> I store') ->
  forall obs, Forall Q obs ->
  forall store store',
    I store -> LearnSpec.observe_all add store obs = Ok store' -> I store'.
Proof.
  intros Hstep obs Hobs.
  induction Hobs as [|[k t] r Hq Hr IH]; intros store store' HI H; simpl in H.
  - now injection H as <-.
  - destruct (add store k t) as [c1|] eqn:E; [|discriminate].
    simpl in H. eapply IH; [|exact H]. eapply Hstep; eauto.
Qed.

Lemma keys_without_sentinel_keys (chain : Chain) :
  keys_without_sentinel chain
  <-> Forall (fun k => ~ In sentinel k) (map fst chain).
Proof. unfold keys_without_sentinel. now rewrite Forall_map. Qed.

Lemma learn_keys_without_sentinel (chain chain' : Chain) (message_text : str) :
  keys_without_sentinel chain ->
  learn chain (tokenize message_text) = Ok chain' ->
  keys_without_sentinel chain'.
Proof.
  rewrite learn_observe_all.
  apply (observe_all_invariant add_observation keys_without_sentinel
           (fun o => ~ In sentinel (fst o))).
  - intros c c' key next Hc Hq H.
    rewrite keys_without_sentinel_keys in *.
    eapply add_observation_keys_P; eauto.
  - apply observations_without_sentinel.
Qed.

Lemma learn_successors_nonempty (chain chain' : Chain) (text : list Token) :
  successors_nonempty chain ->
  learn chain text = Ok chain' ->
  successors_nonempty chain'.
Proof.
  rewrite learn_observe_all.
  apply (observe_all_invariant add_observation successors_nonempty
           (fun _ => True)).
  - intros c c' key next Hc _ H. eapply add_observation_successors; eauto.
  - apply Forall_forall. auto.
Qed.

Lemma learn_NoDup (chain chain' : Chain) (text : list Token) :
  NoDup (map fst chain) ->
  learn chain text = Ok chain' ->
  NoDup (map fst chain').
Proof.
  rewrite learn_observe_all.
  apply (observe_all_invariant add_observation
           (fun c => NoDup (map fst c)) (fun _ => True)).
  - intros c c' key next Hc _ H. eapply add_observation_NoDup; eauto.
  - apply Forall_forall. auto.
Qed.

Lemma add_observation_observed (P : Context -> Token -> Prop)
    (chain chain' : Chain) key next :
  all_observed P chain -> P key next ->
  add_observation chain key next = Ok chain' ->
  all_observed P chain'.
Proof.
  intros Hall Hp H k successors t Hin Ht.
  destruct (add_observation_entries _ _ _ _ H _ _ Hin)
    as [Hold|(-> & old & Hold & ->)].
  - eapply Hall; eauto.
  - apply in_app_or in Ht as [Ht|[<-|[]]]; [|assumption].
    destruct Hold as [->|Hold]; [contradiction|]. eapply Hall; eauto.
Qed.

Lemma learn_observed (P : Context -> Token -> Prop)
    (chain chain' : Chain) (text : list Token) :
  all_observed P chain ->
  Forall (fun o => P (fst o) (snd o)) (LearnSpec.observations text) ->
  learn chain text = Ok chain' ->
  all_observed P chain'.
Proof.
  intros Hall Hobs. rewrite learn_observe_all.
  revert chain chain' Hall.
  apply (observe_all_invariant add_observation (all_observed P)
           (fun o => P (fst o) (snd o))); [|assumption].
  intros c c' key next Hc Hq H. eapply add_observation_observed; eauto.
Qed.

Lemma observed_in_more (texts more : list str) k t :
  observed_in texts k t -> observed_in (texts ++ more) k t.
Proof.
  intros (m & Hm & Ho). exists m. split; [|assumption].
  apply in_or_app. now left.
Qed.

(** What holds of every chain learned from messages. *)
Lemma learn_all_from (texts : list str) : forall seen chain,
  all_observed (observed_in seen) chain ->
  keys_without_sentinel chain -> successors_nonempty chain ->
  NoDup (map fst chain) ->
  exists chain',
    learn_all chain texts = Ok chain'
    /\ all_observed (observed_in (seen ++ texts)) chain'
    /\ keys_without_sentinel chain' /\ successors_nonempty chain'
    /\ NoDup (map fst chain').
Proof.
  induction texts as [|m rest IH]; intros seen chain Hobs Hk Hs Hnd; simpl.
  - exists chain. rewrite app_nil_r. auto.
  - destruct (learn_total chain (tokenize m)) as (c1 & Hc1). rewrite Hc1. simpl.
    replace (seen ++ m :: rest) with ((seen ++ [m]) ++ rest)
      by now rewrite <- app_assoc.
    apply IH.
    + eapply (learn_observed _ chain); [| |exact Hc1].
      * intros k s t Hin Ht. apply observed_in_more. eapply Hobs; eauto.
      * apply Forall_forall. intros [k t] Ho. exists m. split; [|exact Ho].
        apply in_or_app. right. now left.
    + eapply learn_keys_without_sentinel; eauto.
    + eapply learn_successors_nonempty; eauto.
    + eapply learn_NoDup; eauto.
Qed.

Lemma learn_all_reachable (texts : list str) :
  exists chain,
    learn_all [] texts = Ok chain
    /\ all_observed (observed_in texts) chain
    /\ keys_without_sentinel chain /\ successors_nonempty chain
    /\ NoDup (map fst chain).
Proof.
  apply (learn_all_from texts [] []).
  - intros k s t [].
  - constructor.
  - constructor.
  - constructor.
Qed.

(** ** Learned chains are dictionaries of strings *)

Lemma tokenize_valid (message_text : str) :
  valid_str message_text -> Forall valid_str (tokenize message_text).
Proof.
  intros H. unfold tokenize. apply Forall_app. split.
  - now apply split_valid.
  - repeat constructor.
Qed.

Lemma observations_valid (tokens : list Token) :
  Forall valid_str tokens ->
  Forall (fun o => Forall valid_str (fst o)) (LearnSpec.observations tokens).
Proof.
  intros Hv. apply Forall_forall. intros o Ho.
  unfold LearnSpec.observations in Ho.
  apply in_map_iff in Ho as (i & <- & _). cbn [fst].
  apply Forall_forall. intros t Ht. apply In_window in Ht.
  rewrite Forall_forall in Hv. now apply Hv.
Qed.

Lemma well_formed_keys (chain : Chain) :
  well_formed chain
  <-> NoDup (map fst chain) /\ Forall (Forall valid_str) (map fst chain).
Proof. unfold well_formed. now rewrite Forall_map. Qed.

Lemma learn_well_formed (chain chain' : Chain) (tokens : list Token) :
  Forall valid_str tokens ->
  well_formed chain -> learn chain tokens = Ok chain' -> well_formed chain'.
Proof.
  intros Hv. rewrite learn_observe_all.
  apply (observe_all_invariant add_observation well_formed
           (fun o => Forall valid_str (fst o))).
  - intros c c' key next Hc Hq H. rewrite well_formed_keys in *.
    destruct Hc as [Hnd Hk]. split.
    + eapply add_observation_NoDup; eauto.
    + eapply add_observation_keys_P; eauto.
  - now apply observations_valid.
Qed.

Lemma learn_all_well_formed (texts : list str) :
  Forall valid_str texts ->
  forall chain chain',
    well_formed chain -> learn_all chain texts = Ok chain' ->
    well_formed chain'.
Proof.
  induction 1 as [|t rest Ht Hrest IH]; intros chain chain' Hw H; simpl in H.
  - now injection H as <-.
  - destruct (learn chain (tokenize t)) as [c1|] eqn:E; [|discriminate].
    simpl in H. eapply IH; [|exact H].
    eapply learn_well_formed; [|exact Hw|exact E].
    now apply tokenize_valid.
Qed.

End LearnInvariants.

(* ================================================================== *)
(** * [new_bot.py] *)
(* ================================================================== *)

Module NewBotFacts.
Import Py PyFacts ReprFacts Invariants NewBot.

(** ** What [eval] answers is made of code points *)

Lemma valid_str_snoc (s : str) (c : char) :
  valid_str s -> valid_char c -> valid_str (s ++ [c]).
Proof.
  intros Hs Hc. apply Forall_app. split; [assumption | now constructor].
Qed.

Lemma pstep_valid (st st' : pstate) (c : char) :
  state_valid st -> valid_char c -> pstep st c = Some st' -> state_valid st'.
Proof.
  intros Hst Hc. destruct st as [|cl items cm|cl items q l out|cl items|cl items cm];
    cbn [pstep].
  - destruct (c =? 40)%N; [intros [= <-]; constructor|].
    destruct (c =? 91)%N; [intros [= <-]; constructor | discriminate].
  - destruct (c =? 32)%N; [intros [= <-]; exact Hst|].
    destruct (c =? cl)%N; [intros [= <-]; exact Hst|].
    destruct ((c =? 39) || (c =? 34))%N; [|discriminate].
    intros [= <-]. split; [exact Hst | constructor].
  - destruct Hst as [Hi Ho].
    assert (Hsn : forall d, valid_char d -> valid_str (out ++ [d]))
      by (intros d Hd; now apply valid_str_snoc).
    destruct l as [| |k acc]; cbn [lex_step].
    + destruct (c =? q)%N.
      { intros [= <-]. cbn. apply Forall_app. split; [assumption|].
        now constructor. }
      destruct (c =? 92)%N; intros [= <-]; split; auto.
    + destruct ((c =? 92) || (c =? 39) || (c =? 34))%N;
        [intros [= <-]; split; auto|].
      destruct (c =? 116)%N;
        [intros [= <-]; split; [assumption | apply Hsn; reflexivity]|].
      destruct (c =? 110)%N;
        [intros [= <-]; split; [assumption | apply Hsn; reflexivity]|].
      destruct (c =? 114)%N;
        [intros [= <-]; split; [assumption | apply Hsn; reflexivity]|].
      destruct (c =? 120)%N; [intros [= <-]; split; assumption|].
      destruct (c =? 117)%N; [intros [= <-]; split; assumption|].
      destruct (c =? 85)%N; [intros [= <-]; split; assumption | discriminate].
    + destruct (hexval c) as [d|]; [|discriminate].
      destruct k as [|[|k']]; [discriminate| |intros [= <-]; split; assumption].
      destruct (N.ltb_spec (acc * 16 + d) 1114112); [|discriminate].
      intros [= <-]. split; [assumption | now apply Hsn].
  - destruct (c =? 32)%N; [intros [= <-]; exact Hst|].
    destruct (c =? 44)%N; [intros [= <-]; exact Hst|].
    destruct (c =? cl)%N; [intros [= <-]; exact Hst | discriminate].
  - discriminate.
Qed.

Lemma run_valid (s : str) : forall st st',
  state_valid st -> valid_str s -> run st s = Some st' -> state_valid st'.
Proof.
  induction s as [|c r IH]; intros st st' Hst Hs; simpl.
  - now intros [= <-].
  - inversion Hs; subst.
    destruct (pstep st c) as [st1|] eqn:E; [|discriminate].
    apply IH; [|assumption]. eapply pstep_valid; eauto.
Qed.

Lemma eval_valid (s : str) (v : value) :
  valid_str s -> eval s = Ok v -> Forall valid_str (items_of v).
Proof.
  intros Hs. unfold eval.
  destruct (run PStart s) as [st|] eqn:E; [|discriminate].
  apply run_valid in E; [|exact I|assumption].
  destruct st as [| | | |cl items cm]; try discriminate. simpl in E.
  destruct (cl =? 41)%N.
  - destruct items as [|x [|y r]]; destruct cm; intros [= <-]; simpl; auto.
    inversion E as [|? ? Hx _]; subst.
    apply Forall_forall. intros t Ht. apply in_map_iff in Ht as (c & <- & Hc).
    constructor; [|constructor]. unfold valid_str in Hx.
    rewrite Forall_forall in Hx. now apply Hx.
  - now intros [= <-].
Qed.

(** ** Learning *)

Section Learning.
Variable isprintable : char -> bool.

Lemma rows_col_valid (rows : list (str * str)) key col :
  Forall (fun row => valid_str (snd row)) rows ->
  dict_get str_eqb rows key = Some col -> valid_str col.
Proof.
  intros Hv Hget. apply (dict_get_In _ str_eqb_eq) in Hget.
  rewrite Forall_forall in Hv. exact (Hv _ Hget).
Qed.

(** A second, identical observation changes no row. *)
Lemma rows_add_observation_again (rows rows' : list (str * str)) key next :
  Forall (fun row => valid_str (snd row)) rows -> valid_str next ->
  add_observation isprintable rows key next = Ok rows' ->
  add_observation isprintable rows' key next = Ok rows'.
Proof.
  intros Hv Hnext. unfold add_observation.
  set (ks := str_tuple isprintable key).
  destruct (dict_get str_eqb rows ks) as [col|] eqn:E.
  - destruct (eval col) as [v|] eqn:Ev; simpl; [|discriminate].
    pose proof (eval_valid col v (rows_col_valid _ _ _ Hv E) Ev) as Hitems.
    destruct v as [x|t|l]; simpl in Hitems.
    + destruct (contains x next) eqn:Hc; [|discriminate].
      intros [= <-]. rewrite E, Ev. simpl. now rewrite Hc.
    + destruct (str_in next t) eqn:Hc; [|discriminate].
      intros [= <-]. rewrite E, Ev. simpl. now rewrite Hc.
    + destruct (str_in next l) eqn:Hc.
      * intros [= <-]. rewrite E, Ev. simpl. now rewrite Hc.
      * intros [= <-]. rewrite (dict_get_set_same _ str_eqb_eq).
        rewrite eval_str_list.
        -- simpl. now rewrite str_in_last.
        -- apply Forall_app. split; [assumption | now constructor].
  - intros [= <-]. rewrite dict_get_app_absent, E, str_eqb_refl.
    rewrite eval_str_list by now constructor.
    cbn [bind]. pose proof (str_in_last next []) as Hl.
    cbn [app] in Hl. now rewrite Hl.
Qed.

(** ** The loop of [build_markov_chain] *)

Lemma build_iter_in_range (rows : list (str * str)) (words : list str)
    (i : nat) :
  (i + LearnSpec.N < length words)%nat ->
  build_iter isprintable rows words (Z.of_nat i) =
  add_observation isprintable rows (firstn LearnSpec.N (skipn i words))
                  (nth (i + LearnSpec.N) words []).
Proof.
  intros H. unfold build_iter.
  change MARKOV_ORDER with (Z.of_nat LearnSpec.N).
  rewrite slice_window by lia.
  rewrite <- Nat2Z.inj_add.
  now rewrite (index_in_range words (i + LearnSpec.N) []) by assumption.
Qed.

Lemma build_loop_observe_all (words : list str) (idxs : list nat) :
  Forall (fun i => (i + LearnSpec.N < length words)%nat) idxs ->
  forall rows,
    build_loop isprintable rows words (map Z.of_nat idxs) =
    LearnSpec.observe_all (add_observation isprintable) rows
      (map (fun i => (firstn LearnSpec.N (skipn i words),
                      nth (i + LearnSpec.N) words [])) idxs).
Proof.
  induction 1 as [|i idxs Hi Hr IH]; intros rows; simpl; [reflexivity|].
  rewrite build_iter_in_range by assumption.
  destruct (add_observation isprintable rows _ _); simpl;
    [apply IH | reflexivity].
Qed.

Lemma build_observe_all (d : db) (words : list str) :
  build_markov_chain isprintable d words =
  bind (LearnSpec.observe_all (add_observation isprintable) (chain d)
          (LearnSpec.observations (words ++ [[]])))
       (fun rows => Ok {| chain := rows; stats := stats d |}).
Proof.
  unfold build_markov_chain, range, LearnSpec.observations.
  replace (Z.to_nat (len (words ++ [[]]) - MARKOV_ORDER))
    with (length (words ++ [[]]) - LearnSpec.N)%nat
    by (unfold len, MARKOV_ORDER, LearnSpec.N; simpl; lia).
  rewrite build_loop_observe_all; [reflexivity|].
  apply Forall_forall. intros i Hi. apply in_seq in Hi. lia.
Qed.

(** ** The rows that learning writes *)

Lemma add_observation_learned (rows : list (str * str)) key next :
  rows_learned isprintable rows ->
  ~ In sentinel key -> valid_str next ->
  exists rows',
    add_observation isprintable rows key next = Ok rows'
    /\ rows_learned isprintable rows'.
Proof.
  intros Hrows Hkey Hnext. unfold add_observation.
  set (ks := str_tuple isprintable key).
  assert (Hnew : forall successors,
             successors <> [] -> Forall valid_str successors ->
             row_learned isprintable (ks, str_list isprintable successors)).
  { intros l Hne Hl. exists key, l. auto. }
  destruct (dict_get str_eqb rows ks) as [col|] eqn:E.
  - pose proof (dict_get_In _ str_eqb_eq _ _ _ E) as Hin.
    unfold rows_learned in Hrows. rewrite Forall_forall in Hrows.
    destruct (Hrows _ Hin) as (key' & l & Hrow & _ & Hne & Hl).
    injection Hrow as _ ->.
    rewrite eval_str_list by assumption. simpl.
    destruct (str_in next l).
    + exists rows. split; [reflexivity|]. now apply Forall_forall.
    + eexists. split; [reflexivity|].
      apply Forall_forall. intros [k0 v0] H0.
      apply (dict_set_entries _ str_eqb_eq) in H0 as [H0|[-> ->]].
      * now apply Hrows.
      * apply Hnew; [now destruct l|].
        apply Forall_app. split; [assumption | now constructor].
  - eexists. split; [reflexivity|].
    apply Forall_app. split; [assumption|].
    constructor; [|constructor].
    apply Hnew; [discriminate | now constructor].
Qed.

Lemma observe_all_learned (obs : list (list str * str)) :
  Forall (fun o => ~ In sentinel (fst o) /\ valid_str (snd o)) obs ->
  forall rows, rows_learned isprintable rows ->
  exists rows',
    LearnSpec.observe_all (add_observation isprintable) rows obs = Ok rows'
    /\ rows_learned isprintable rows'.
Proof.
  induction 1 as [|[k t] r [Hk Ht] Hr IH]; intros rows Hrows; simpl.
  - eauto.
  - destruct (add_observation_learned rows k t Hrows Hk Ht) as (r1 & -> & H1).
    simpl. now apply IH.
Qed.

Lemma observations_learnable (message_text : str) :
  valid_str message_text ->
  Forall (fun o => ~ In sentinel (fst o) /\ valid_str (snd o))
         (LearnSpec.observations (split message_text ++ [[]])).
Proof.
  intros Hv.
  pose proof (LearnInvariants.observations_without_sentinel message_text) as H.
  unfold Markov.tokenize in H. rewrite Forall_forall in *.
  intros o Ho. split; [now apply H|].
  unfold LearnSpec.observations in Ho.
  apply in_map_iff in Ho as (i & <- & _). simpl.
  assert (Hall : Forall valid_str (split message_text ++ [[]])).
  { apply Forall_app. split; [now apply LearnInvariants.split_valid|].
    repeat constructor. }
  rewrite Forall_forall in Hall.
  destruct (nth_in_or_default (i + LearnSpec.N)
              (split message_text ++ [[]]) []) as [Hin| ->].
  - now apply Hall.
  - constructor.
Qed.

(** Learning a message keeps the rows as learning writes them, and cannot
    fail on such rows. *)
Lemma build_learned (d : db) (message_text : str) :
  rows_learned isprintable (chain d) -> valid_str message_text ->
  exists d',
    build_markov_chain isprintable d (split message_text) = Ok d'
    /\ rows_learned isprintable (chain d')
    /\ stats d' = stats d.
Proof.
  intros Hrows Hv. rewrite build_observe_all.
  destruct (observe_all_learned _ (observations_learnable _ Hv) _ Hrows)
    as (rows' & -> & Hrows').
  simpl. eexists. split; [reflexivity|]. simpl. auto.
Qed.
End Learning.

(** ** Generation *)

Section Generation.
Variable isprintable : char -> bool.

(** What the loop answers when it answers: the list it was given,
    followed by at most one drawn word per turn; only the last word can be
    the empty string. *)
Lemma rows_generate_loop_sound (rows : list (str * str)) (rnd : oracle)
    (turns : list Z) :
  forall k text out,
    generate_loop isprintable rows rnd k turns text = Ok out ->
    exists suffix,
      out = text ++ suffix
      /\ (length suffix <= length turns)%nat
      /\ drawn_from_rows isprintable rows text suffix
      /\ (forall j, (S j < length suffix)%nat -> nth j suffix [] <> sentinel).
Proof.
  assert (Hnil : forall text : list str,
    text = text ++ []
    /\ (forall n, length (@nil str) <= n)%nat
    /\ drawn_from_rows isprintable rows text []
    /\ (forall j, (S j < length (@nil str))%nat ->
                  nth j (@nil str) [] <> sentinel)).
  { intros text. rewrite app_nil_r. repeat split.
    - intros n. simpl. lia.
    - intros j Hj. simpl in Hj. lia.
    - intros j Hj. simpl in Hj. lia. }
  induction turns as [|t rest IH]; intros k text out H;
    cbn [generate_loop] in H.
  - injection H as <-. exists []. destruct (Hnil text) as (? & Hl & ? & ?).
    repeat split; auto.
  - destruct (dict_get str_eqb rows
                (str_tuple isprintable (slice_from text (- MARKOV_ORDER))))
      as [[|c0 col]|] eqn:Hget.
    + injection H as <-. exists []. destruct (Hnil text) as (? & Hl & ? & ?).
      repeat split; auto.
    + destruct (eval (c0 :: col)) as [v|] eqn:Ev; cbn [bind] in H;
        [|discriminate].
      destruct (choice (rnd k) (items_of v)) as [w|] eqn:Hc; cbn [bind] in H;
        [|discriminate].
      assert (Hfirst : exists col' v',
                 dict_get str_eqb rows
                   (str_tuple isprintable
                      (window_before LearnSpec.N (length text) text))
                 = Some col'
                 /\ eval col' = Ok v' /\ In w (items_of v')).
      { exists (c0 :: col), v. rewrite <- GenerateFacts.lookup_window.
        repeat split; auto. eapply choice_In; eauto. }
      destruct w as [|c w'].
      * injection H as <-. exists [[]]. repeat split.
        -- simpl. lia.
        -- intros [|j] Hj; [|simpl in Hj; lia].
           rewrite Nat.add_0_r, GenerateFacts.window_before_app by lia.
           exact Hfirst.
        -- intros j Hj. simpl in Hj. lia.
      * apply IH in H as (suffix & -> & Hlen & Hdrawn & Hlast).
        exists ((c :: w') :: suffix). rewrite <- app_assoc.
        repeat split.
        -- simpl. lia.
        -- intros [|j] Hj.
           ++ rewrite Nat.add_0_r, GenerateFacts.window_before_app by lia.
              exact Hfirst.
           ++ simpl in Hj.
              destruct (Hdrawn j ltac:(lia)) as (col' & v' & Hg & He & Hin).
              exists col', v'. repeat split; auto.
              rewrite <- Hg. rewrite <- app_assoc, length_app. simpl.
              do 3 f_equal. lia.
        -- intros [|j] Hj; [discriminate|].
           simpl in Hj. simpl. apply Hlast. lia.
    + injection H as <-. exists []. destruct (Hnil text) as (? & Hl & ? & ?).
      repeat split; auto.
Qed.

(** On rows as learning writes them the loop always answers. *)
Lemma rows_generate_loop_total (rows : list (str * str)) (rnd : oracle)
    (turns : list Z) :
  rows_learned isprintable rows ->
  forall k text,
    exists out, generate_loop isprintable rows rnd k turns text = Ok out.
Proof.
  intros Hrows. induction turns as [|t rest IH]; intros k text;
    cbn [generate_loop]; [eauto|].
  destruct (dict_get str_eqb rows
              (str_tuple isprintable (slice_from text (- MARKOV_ORDER))))
    as [col|] eqn:Hget; [|eauto].
  apply (dict_get_In _ str_eqb_eq) in Hget.
  unfold rows_learned in Hrows. rewrite Forall_forall in Hrows.
  destruct (Hrows _ Hget) as (key & l & Hrow & _ & Hne & Hl).
  injection Hrow as _ ->.
  rewrite eval_str_list by assumption.
  unfold str_list at 1. cbn [app bind items_of].
  destruct (choice_nonempty (rnd k) l Hne) as (w & ->). cbn [bind].
  destruct w; [eauto | apply IH].
Qed.

(** The loop stops at once when the window has no row. *)
Lemma rows_generate_loop_absent (rows : list (str * str)) (rnd : oracle)
    (turns : list Z) (k : nat) (text : list str) :
  dict_get str_eqb rows
    (str_tuple isprintable (slice_from text (- MARKOV_ORDER))) = None ->
  generate_loop isprintable rows rnd k turns text = Ok text.
Proof.
  intros H. destruct turns; cbn [generate_loop]; [reflexivity | now rewrite H].
Qed.

(** With no row, the seed is the pair of line 112 and nothing follows. *)
Lemma generate_text_no_rows (st : list (str * Z)) (rnd : oracle)
    (max_words : Z) :
  generate_text isprintable {| chain := []; stats := st |} rnd max_words
  = Ok (lit "start here").
Proof.
  unfold generate_text, generate_tokens, get_random_key. cbn [chain map length].
  destruct (rnd O mod 0)%nat; cbn [nth_error bind];
    rewrite rows_generate_loop_absent by reflexivity; reflexivity.
Qed.
End Generation.

(** ** The counters *)

Lemma update_stat_keys (d : db) (key : str) (value : Z) :
  map fst (stats (update_stat d key value)) = map fst (stats d).
Proof.
  unfold update_stat. cbn [stats]. rewrite map_map.
  apply map_ext. intros row. now destruct (str_eqb (fst row) key).
Qed.

Lemma get_stat_no_row (d : db) (key : str) :
  ~ In key (map fst (stats d)) -> get_stat d key = 0.
Proof.
  intros H. unfold get_stat.
  apply (dict_get_None _ str_eqb_eq) in H. now rewrite H.
Qed.

Lemma update_stat_chain (d : db) (key : str) (value : Z) :
  chain (update_stat d key value) = chain d.
Proof. reflexivity. Qed.

Lemma build_markov_chain_stats (isprintable : char -> bool) (d d' : db)
    (words : list str) :
  build_markov_chain isprintable d words = Ok d' -> stats d' = stats d.
Proof.
  unfold build_markov_chain.
  destruct (build_loop _ _ _ _); simpl; [|discriminate].
  now intros [= <-].
Qed.

(** The handler never adds a row to table [stats]. *)
Lemma handle_message_stats_keys (isprintable : char -> bool)
    (lower : str -> str) (m : Message) (rnd : oracle) (d : db) :
  map fst (stats (fst (handle_message isprintable lower m rnd d)))
  = map fst (stats d).
Proof.
  unfold handle_message.
  set (d1 := update_stat d (lit "total_messages") _).
  assert (H1 : map fst (stats d1) = map fst (stats d))
    by apply update_stat_keys.
  destruct (build_markov_chain isprintable d1 (split (text m))) as [d2|] eqn:E;
    [|exact H1].
  apply build_markov_chain_stats in E.
  destruct (negb (trigger_conditions lower m)); cbn [fst];
    [now rewrite E|].
  destruct (generate_text isprintable d2 rnd MAX_WORDS); cbn [fst].
  - rewrite update_stat_keys. now rewrite E.
  - now rewrite E.
Qed.

(** When the row is there, the handler adds one to it. *)
Lemma get_stat_updated (d : db) (key : str) (value : Z) :
  In key (map fst (stats d)) ->
  get_stat (update_stat d key value) key = value.
Proof.
  unfold get_stat, update_stat. cbn [stats].
  induction (stats d) as [|[k v] r IH]; simpl; [tauto|].
  intros [->|H].
  - now rewrite !str_eqb_refl.
  - destruct (str_eqb k key) eqn:E; simpl.
    + apply str_eqb_eq in E. subst. now rewrite str_eqb_refl.
    + destruct (str_eqb key k) eqn:E'.
      * apply str_eqb_eq in E'. subst. rewrite str_eqb_refl in E. discriminate.
      * now apply IH.
Qed.

End NewBotFacts.

(* ================================================================== *)
(** * The handlers and the statistics of [markov.py] *)
(* ================================================================== *)

Module HandlerFacts.
Import Py PyFacts Markov.

(** [on_message] adds one to [total_messages], whatever it does next. *)
Lemma on_message_total_messages (isprintable : char -> bool)
    (m : Message) (rnd : randomness) (g : globals) (fs : files) :
  total_messages (fst (fst (on_message isprintable m rnd g fs)))
  = total_messages g + 1.
Proof.
  unfold on_message. cbn [markov_chain total_messages generated_messages].
  destruct (learn (markov_chain g) (tokenize (text m))); [|reflexivity].
  destruct (negb (addressed m) && skip rnd); [reflexivity|].
  destruct (generate_markov_text _ _ _); reflexivity.
Qed.

Lemma sum_from (l : list Z) (a : Z) : fold_left Z.add l a = a + sum l.
Proof.
  unfold sum. revert a. induction l as [|x r IH]; intros a; simpl; [lia|].
  rewrite IH, (IH x). lia.
Qed.

Lemma sum_cons (x : Z) (l : list Z) : sum (x :: l) = x + sum l.
Proof. unfold sum at 1. simpl. apply sum_from. Qed.

(** On a chain with at least one key, [wisdom] reports the number of keys,
    the total length of the successor lists, and their quotient. *)
Lemma wisdom_nonempty (g : globals) :
  markov_chain g <> [] ->
  wisdom g =
  Ok {| st_total_messages := total_messages g;
        st_generated_messages := generated_messages g;
        st_total_words := len (markov_chain g);
        st_chain_size := sum (map (fun kv => len (snd kv)) (markov_chain g));
        st_variability :=
          (inject_Z (sum (map (fun kv => len (snd kv)) (markov_chain g)))
           / inject_Z (len (markov_chain g)))%Q |}.
Proof.
  intros Hne. unfold wisdom, truediv.
  destruct (Z.eqb_spec (len (markov_chain g)) 0) as [H0|H0].
  - unfold len in H0. destruct (markov_chain g); [congruence | discriminate].
  - cbn [bind]. now rewrite map_map.
Qed.

End HandlerFacts.

(* ================================================================== *)
(** * Joining and trimming *)
(* ================================================================== *)

Module TextFacts.
Import Py PyFacts Invariants.

Lemma lstrip_head (s : str) :
  lstrip s = [] \/ exists c r, lstrip s = c :: r /\ isspace c = false.
Proof.
  induction s as [|c r IH]; simpl; [now left|].
  destruct (isspace c) eqn:E; [exact IH | right; eauto].
Qed.

(** What [strip] answers neither starts nor ends with whitespace. *)
Lemma rstrip_last (s : str) :
  rstrip s = [] \/ exists r c, rstrip s = r ++ [c] /\ isspace c = false.
Proof.
  unfold rstrip. destruct (lstrip_head (rev s)) as [->|(c & r & -> & Hc)].
  - now left.
  - right. exists (rev r), c. simpl. auto.
Qed.

Lemma strip_last (s : str) :
  strip s = [] \/ exists r c, strip s = r ++ [c] /\ isspace c = false.
Proof. apply rstrip_last. Qed.

Lemma lstrip_word (t rest : str) : word t -> lstrip (t ++ rest) = t ++ rest.
Proof.
  intros [Hne Hall]. destruct t as [|c r]; [congruence|].
  inversion Hall as [|? ? Hc _]; subst. simpl. now rewrite Hc.
Qed.

Lemma rstrip_word (pre t : str) : word t -> rstrip (pre ++ t) = pre ++ t.
Proof.
  intros [Hne Hall]. destruct (exists_last Hne) as (r & c & ->).
  apply Forall_app in Hall as [_ Hc]. inversion Hc as [|? ? Hc' _]; subst.
  unfold rstrip. rewrite app_assoc, rev_unit. simpl. rewrite Hc'.
  simpl. now rewrite rev_involutive.
Qed.

Lemma rstrip_space (s : str) : rstrip (s ++ lit " ") = rstrip s.
Proof.
  unfold rstrip. change (lit " ") with [32%N]. now rewrite rev_unit.
Qed.

Lemma join_sentinel (sep : str) (tokens : list str) :
  tokens <> [] -> join sep (tokens ++ [[]]) = join sep tokens ++ sep.
Proof.
  induction tokens as [|x r IH]; intros Hne; [congruence|].
  destruct r as [|y r'].
  - simpl. now rewrite app_nil_r.
  - change (join sep ((x :: y :: r') ++ [[]]))
      with (x ++ sep ++ join sep ((y :: r') ++ [[]])).
    rewrite IH by discriminate.
    change (join sep (x :: y :: r')) with (x ++ sep ++ join sep (y :: r')).
    now rewrite <- !app_assoc.
Qed.

Lemma join_first (sep : str) (x : str) (r : list str) :
  exists rest, join sep (x :: r) = x ++ rest.
Proof.
  destruct r as [|y r'].
  - exists []. simpl. now rewrite app_nil_r.
  - exists (sep ++ join sep (y :: r')). reflexivity.
Qed.

Lemma join_last (sep : str) (tokens : list str) :
  tokens <> [] -> exists pre, join sep tokens = pre ++ last tokens [].
Proof.
  induction tokens as [|x r IH]; intros Hne; [congruence|].
  destruct r as [|y r'].
  - now exists [].
  - destruct IH as (pre & Hpre); [discriminate|].
    exists (x ++ sep ++ pre).
    change (join sep (x :: y :: r')) with (x ++ sep ++ join sep (y :: r')).
    rewrite Hpre. change (last (x :: y :: r') []) with (last (y :: r') []).
    now rewrite <- !app_assoc.
Qed.

Lemma last_In {A} (l : list A) (d : A) : l <> [] -> In (last l d) l.
Proof.
  induction l as [|x r IH]; intros Hne; [congruence|].
  destruct r as [|y r']; [now left|].
  right. apply IH. discriminate.
Qed.

(** Joined words are already trimmed. *)
Lemma strip_join_words (tokens : list str) :
  Forall word tokens ->
  strip (join (lit " ") tokens) = join (lit " ") tokens.
Proof.
  intros Hw. destruct tokens as [|x r]; [reflexivity|].
  unfold strip.
  destruct (join_first (lit " ") x r) as (rest & Hrest).
  inversion Hw as [|? ? Hx Hr]; subst.
  rewrite Hrest, lstrip_word by assumption. rewrite <- Hrest.
  destruct (join_last (lit " ") (x :: r)) as (pre & ->); [discriminate|].
  apply rstrip_word. rewrite Forall_forall in Hw. apply Hw.
  apply last_In. discriminate.
Qed.

(** [strip] removes the space that [join] puts before a final empty
    string. *)
Lemma strip_join_sentinel (tokens : list str) :
  Forall word tokens ->
  strip (join (lit " ") (tokens ++ [[]])) = join (lit " ") tokens.
Proof.
  intros Hw. destruct tokens as [|x r]; [reflexivity|].
  rewrite join_sentinel by discriminate.
  unfold strip.
  destruct (join_first (lit " ") x r) as (rest & Hrest).
  inversion Hw as [|? ? Hx Hr]; subst.
  rewrite Hrest, <- app_assoc, lstrip_word by assumption.
  rewrite app_assoc, <- Hrest, rstrip_space.
  pose proof (strip_join_words (x :: r) Hw) as Hs. unfold strip in Hs.
  rewrite Hrest, lstrip_word in Hs by assumption. now rewrite <- Hrest in Hs.
Qed.

End TextFacts.

(* ================================================================== *)
(** * The properties of the specification *)
(* ================================================================== *)

Module Claims.
Import Py PyFacts Invariants.

(** ** Generation on an empty store *)

(** C1, as stated, fails: on a store without entries [generate_text] of
    [new_bot.py] does not fail, it answers the text "start here"; and
    [generate_markov_text] of [markov.py] stops on the [IndexError] of
    [random.choice], not on a dedicated error. *)
Lemma generate_on_empty_store_does_not_fail :
  NewBot.generate_text Examples.all_printable NewBot.init_db
    Examples.first_item NewBot.MAX_WORDS = Ok (lit "start here")
  /\ Markov.generate_markov_text [] Examples.first_item 100 = Raise IndexError.
Proof. split; reflexivity. Qed.

(** C1, amended: for every store of [new_bot.py] whose table [chain] has
    no row, every random source and every [max_words], [generate_text] seeds
    itself with the pair ("start", "here") and answers "start here". *)
Theorem generate_text_on_empty_store (isprintable : char -> bool)
    (st : list (str * Z)) (rnd : oracle) (max_words : Z) :
  NewBot.generate_text isprintable
    {| NewBot.chain := []; NewBot.stats := st |} rnd max_words
  = Ok (lit "start here").
Proof. apply NewBotFacts.generate_text_no_rows. Qed.

(** ** The counter of learned messages *)

(** C2 at the failing input: on the database that [init_db] creates, where
    table [stats] has no row, [handle_message] of [new_bot.py] leaves the
    counter that [get_stat] reports at 0 for every message: [update_stat]
    is an UPDATE and no row is ever inserted. *)
Theorem total_messages_stays_zero_on_new_database
    (isprintable : char -> bool) (lower : str -> str)
    (m : NewBot.Message) (rnd : oracle) :
  NewBot.get_stat NewBot.init_db (lit "total_messages") = 0
  /\ NewBot.get_stat
       (fst (NewBot.handle_message isprintable lower m rnd NewBot.init_db))
       (lit "total_messages") = 0.
Proof.
  split; [reflexivity|].
  apply NewBotFacts.get_stat_no_row.
  rewrite NewBotFacts.handle_message_stats_keys. simpl. tauto.
Qed.

(** ** Persistence *)

(** C3: for every state of [markov.py] (a dictionary, so with pairwise
    distinct keys, of strings, so of code points), loading what
    [save_markov_chain] wrote gives back the same chain, keys and successor
    lists in the same order, and the same two counters; a key with the
    empty string is read back as it was written.  Every chain learned from
    messages is such a dictionary. *)
Theorem save_then_load_round_trip (isprintable : char -> bool)
    (g : Markov.globals) (fs : Markov.files) :
  (well_formed (Markov.markov_chain g) ->
   Markov.load_markov_chain (Markov.save_markov_chain isprintable g fs) = Ok g)
  /\ (forall texts,
        Forall valid_str texts ->
        learn_all [] texts = Ok (Markov.markov_chain g) ->
        well_formed (Markov.markov_chain g)).
Proof.
  split.
  - intros [Hnd Hv]. now apply PersistenceFacts.load_after_save.
  - intros texts Hv H.
    eapply (LearnInvariants.learn_all_well_formed texts Hv []); [|exact H].
    split; constructor.
Qed.

Lemma save_then_load_round_trip_witness :
  well_formed (Markov.markov_chain Examples.cat_globals)
  /\ Markov.load_markov_chain
       (Markov.save_markov_chain Examples.all_printable
          Examples.cat_globals Examples.no_files)
     = Ok Examples.cat_globals.
Proof.
  assert (H : well_formed (Markov.markov_chain Examples.cat_globals)).
  { split.
    - repeat constructor; simpl; intuition discriminate.
    - repeat constructor; vm_compute; reflexivity. }
  split; [exact H|].
  exact (proj1 (save_then_load_round_trip Examples.all_printable
                  Examples.cat_globals Examples.no_files) H).
Defined.

(** ** Learning *)

(** C4: for every token sequence of length [L], the loop of [learn] is the
    sequence of the [L - N] calls [add_observation(tokens[i .. i+N),
    tokens[i+N])] for [i] from [0] to [L - N - 1], every context having [N]
    tokens; it never fails; and when [L < N + 1] it makes no call and leaves
    the store as it is.  This holds of the loop of [markov.py] (on the chain)
    and of the loop of [new_bot.py] (on the rows). *)
Theorem learn_observes_every_window (tokens : list str) :
  let L := length tokens in
  let N := LearnSpec.N in
  length (LearnSpec.observations tokens) = (L - N)%nat
  /\ (forall i, (i + N < L)%nat ->
        nth_error (LearnSpec.observations tokens) i
        = Some (firstn N (skipn i tokens), nth (i + N) tokens [])
        /\ length (firstn N (skipn i tokens)) = N)
  /\ (forall chain,
        Markov.learn chain tokens
        = LearnSpec.observe_all Markov.add_observation chain
            (LearnSpec.observations tokens)
        /\ exists chain', Markov.learn chain tokens = Ok chain')
  /\ (forall isprintable rows,
        NewBot.build_loop isprintable rows tokens
          (range (len tokens - NewBot.MARKOV_ORDER))
        = LearnSpec.observe_all (NewBot.add_observation isprintable) rows
            (LearnSpec.observations tokens))
  /\ ((L < N + 1)%nat ->
        (forall chain, Markov.learn chain tokens = Ok chain)
        /\ (forall isprintable rows,
              NewBot.build_loop isprintable rows tokens
                (range (len tokens - NewBot.MARKOV_ORDER)) = Ok rows)).
Proof.
  intros L N.
  assert (Hnb : forall isprintable rows,
             NewBot.build_loop isprintable rows tokens
               (range (len tokens - NewBot.MARKOV_ORDER))
             = LearnSpec.observe_all (NewBot.add_observation isprintable) rows
                 (LearnSpec.observations tokens)).
  { intros isprintable rows. unfold range, LearnSpec.observations.
    replace (Z.to_nat (len tokens - NewBot.MARKOV_ORDER))
      with (length tokens - LearnSpec.N)%nat
      by (unfold len, NewBot.MARKOV_ORDER, LearnSpec.N; simpl; lia).
    apply NewBotFacts.build_loop_observe_all.
    apply Forall_forall. intros i Hi. apply in_seq in Hi. lia. }
  split; [apply MarkovFacts.observations_length|].
  split.
  { intros i Hi. split.
    - now apply MarkovFacts.observations_nth.
    - now apply MarkovFacts.window_length. }
  split.
  { intros chain. split.
    - apply MarkovFacts.learn_observe_all.
    - apply MarkovFacts.learn_total. }
  split; [exact Hnb|].
  intros Hshort.
  assert (Hnone : LearnSpec.observations tokens = []).
  { apply length_zero_iff_nil. rewrite MarkovFacts.observations_length.
    subst L N. lia. }
  split.
  - intros chain. now rewrite MarkovFacts.learn_observe_all, Hnone.
  - intros isprintable rows. now rewrite Hnb, Hnone.
Qed.

Lemma learn_observes_every_window_witness :
  nth_error (LearnSpec.observations (Markov.tokenize (lit "the cat sat"))) 1
  = Some ([lit "cat"; lit "sat"], [])
  /\ Markov.learn [] (Markov.tokenize (lit "cat")) = Ok [].
Proof.
  split.
  - pose proof (learn_observes_every_window
                  (Markov.tokenize (lit "the cat sat"))) as H.
    cbv zeta in H. destruct H as (_ & Hnth & _).
    assert (Hi : (1 + LearnSpec.N
                  < length (Markov.tokenize (lit "the cat sat")))%nat)
      by (vm_compute; lia).
    exact (proj1 (Hnth 1%nat Hi)).
  - pose proof (learn_observes_every_window (Markov.tokenize (lit "cat")))
      as H.
    cbv zeta in H. destruct H as (_ & _ & _ & _ & Hshort).
    assert (Hs : (length (Markov.tokenize (lit "cat")) < LearnSpec.N + 1)%nat)
      by (vm_compute; lia).
    exact (proj1 (Hshort Hs) []).
Defined.

(** C5: for every store, context and token, a second call of
    [add_observation] with the same arguments answers the store the first
    call answered: nothing changes, so the successor list of the context has
    the same content and length.  In [markov.py] the first call always
    answers; in [new_bot.py] it can fail when a row does not hold the text of a
    list, and the statement is about the calls that answer. *)
Theorem add_observation_idempotent :
  (forall (chain : Markov.Chain) (context : Markov.Context) (t : Markov.Token),
     exists once,
       Markov.add_observation chain context t = Ok once
       /\ Markov.add_observation once context t = Ok once)
  /\ (forall isprintable (rows once : list (str * str))
             (context : list str) (t : str),
        Forall (fun row => valid_str (snd row)) rows -> valid_str t ->
        NewBot.add_observation isprintable rows context t = Ok once ->
        NewBot.add_observation isprintable once context t = Ok once).
Proof.
  split.
  - intros chain context t.
    eexists. split; [apply MarkovFacts.add_observation_cases|].
    apply (MarkovFacts.add_observation_again chain).
    apply MarkovFacts.add_observation_cases.
  - intros isprintable rows once context t Hv Ht H.
    eapply NewBotFacts.rows_add_observation_again; eauto.
Qed.

Lemma add_observation_idempotent_witness :
  NewBot.add_observation Examples.all_printable
    (Examples.comma_rows ++ [(lit "('c,', 'd')", lit "['e']")])
    [lit "c,"; lit "d"] (lit "e")
  = Ok (Examples.comma_rows ++ [(lit "('c,', 'd')", lit "['e']")]).
Proof.
  destruct add_observation_idempotent as [_ H].
  apply (H Examples.all_printable Examples.comma_rows).
  - repeat constructor; vm_compute; reflexivity.
  - repeat constructor; vm_compute; reflexivity.
  - reflexivity.
Defined.

(** ** Statistics *)

(** C6 at the failing inputs.  On the empty chain [wisdom] of [markov.py]
    divides by the number of keys without testing it and stops on
    [ZeroDivisionError], where [wisdom_command] of [new_bot.py] tests
    [chain_count > 0] and reports 0.  And [wisdom_command] counts the
    successors of a row as its commas plus one: for the rows learned from
    "a b c," it reports 3 where the two lists hold one successor each. *)
Theorem wisdom_on_empty_chain_and_on_commas (total generated : Z) :
  Markov.wisdom {| Markov.markov_chain := [];
                   Markov.total_messages := total;
                   Markov.generated_messages := generated |}
  = Raise ZeroDivisionError
  /\ NewBot.sm_variability (NewBot.wisdom_command NewBot.init_db) = 0%Q
  /\ NewBot.build_markov_chain Examples.all_printable NewBot.init_db
       (split (lit "a b c,")) = Ok Examples.comma_db
  /\ map (fun row => NewBot.items_of_text (snd row)) Examples.comma_rows
     = [Ok [lit "c,"]; Ok [[]]]
  /\ NewBot.sm_chain_size (NewBot.wisdom_command Examples.comma_db) = 3.
Proof. repeat split. Qed.

(** ** The generated text *)

(** C7 at the failing input.  [generate_markov_text] of [markov.py] joins
    the tokens and trims nothing: on the chain learned from "the cat sat",
    with the first key as seed, the tokens end with the empty string and the
    text ends with a space. *)
Theorem generate_markov_text_keeps_trailing_space :
  Markov.learn [] (Markov.tokenize (lit "the cat sat")) = Ok Examples.cat_chain
  /\ Markov.generate_tokens Examples.cat_chain Examples.first_item 50
     = Ok [lit "the"; lit "cat"; lit "sat"; []]
  /\ Markov.generate_markov_text Examples.cat_chain Examples.first_item 50
     = Ok (lit "the cat sat ").
Proof. repeat split. Qed.

(** ** Generation *)

(** C8: for every store, every seed and every [max_words], the loop of
    [generate] answers the seed followed by at most [max_words] appended
    tokens, so at most [len(seed) + max_words] tokens (none appended when
    [max_words <= 0]); it stops at once when the window is not in the store;
    and it appends nothing after the sentinel.  The stores are those whose
    every entry has a successor, as learning builds them: the chains with
    non-empty lists for [markov.py], the rows written by learning for
    [new_bot.py].  In [markov.py] the stop after the sentinel is the missed
    lookup, which needs keys free of the sentinel; in [new_bot.py] it is the
    explicit [break]. *)
Theorem generate_stops_within_max_words :
  (forall (chain : Markov.Chain) (rnd : oracle) (k : nat) (max_words : Z)
          (seed : list str),
     successors_nonempty chain ->
     exists suffix,
       Markov.generate_loop chain rnd k (range max_words) seed
       = Ok (seed ++ suffix)
       /\ (length suffix <= Z.to_nat max_words)%nat
       /\ len (seed ++ suffix) <= len seed + Z.max 0 max_words)
  /\ (forall (chain : Markov.Chain) (rnd : oracle) (k : nat) (max_words : Z)
             (seed : list str),
        match Markov.generate_loop chain rnd k (range max_words) seed with
        | Ok out =>
            exists suffix,
              out = seed ++ suffix
              /\ (length suffix <= Z.to_nat max_words)%nat
        | Raise e =>
            e = IndexError
            /\ exists key, dict_get tuple_eqb chain key = Some []
        end)
  /\ (forall (chain : Markov.Chain) rnd k turns (text : list str),
        dict_get tuple_eqb chain (slice_from text (- Markov.MARKOV_ORDER))
        = None ->
        Markov.generate_loop chain rnd k turns text = Ok text)
  /\ (forall (chain : Markov.Chain) rnd k turns (text : list str),
        keys_without_sentinel chain ->
        Markov.generate_loop chain rnd k turns (text ++ [sentinel])
        = Ok (text ++ [sentinel]))
  /\ (forall isprintable (rows : list (str * str)) (rnd : oracle) (k : nat)
             (max_words : Z) (seed : list str),
        rows_learned isprintable rows ->
        exists suffix,
          NewBot.generate_loop isprintable rows rnd k (range max_words) seed
          = Ok (seed ++ suffix)
          /\ (length suffix <= Z.to_nat max_words)%nat
          /\ len (seed ++ suffix) <= len seed + Z.max 0 max_words
          /\ (forall j, (S j < length suffix)%nat ->
                        nth j suffix [] <> sentinel))
  /\ (forall isprintable (rows : list (str * str)) rnd k turns
             (text : list str),
        dict_get str_eqb rows
          (str_tuple isprintable (slice_from text (- NewBot.MARKOV_ORDER)))
        = None ->
        NewBot.generate_loop isprintable rows rnd k turns text = Ok text).
Proof.
  assert (Hlen : forall (seed suffix : list str) (max_words : Z),
             (length suffix <= Z.to_nat max_words)%nat ->
             len (seed ++ suffix) <= len seed + Z.max 0 max_words).
  { intros seed suffix max_words H. unfold len. rewrite length_app. lia. }
  split.
  { intros chain rnd k max_words seed Hne.
    destruct (GenerateFacts.generate_loop_total chain rnd (range max_words)
                Hne k seed) as (out & Hout).
    destruct (GenerateFacts.generate_loop_sound _ _ _ _ _ _ Hout)
      as (suffix & -> & Hle & _).
    rewrite range_length in Hle.
    exists suffix. auto. }
  split.
  { intros chain rnd k max_words seed.
    destruct (Markov.generate_loop chain rnd k (range max_words) seed)
      as [out|e] eqn:Hout.
    - destruct (GenerateFacts.generate_loop_sound _ _ _ _ _ _ Hout)
        as (suffix & -> & Hle & _).
      rewrite range_length in Hle. eauto.
    - eapply GenerateFacts.generate_loop_raises; eauto. }
  split; [intros; now apply GenerateFacts.generate_loop_absent|].
  split; [intros; now apply GenerateFacts.generate_loop_after_sentinel|].
  split; [|intros; now apply NewBotFacts.rows_generate_loop_absent].
  intros isprintable rows rnd k max_words seed Hrows.
  destruct (NewBotFacts.rows_generate_loop_total isprintable rows rnd
              (range max_words) Hrows k seed) as (out & Hout).
  destruct (NewBotFacts.rows_generate_loop_sound _ _ _ _ _ _ _ Hout)
    as (suffix & -> & Hle & _ & Hlast).
  rewrite range_length in Hle.
  exists suffix. auto.
Qed.

Lemma generate_stops_within_max_words_witness :
  exists suffix,
    Markov.generate_loop Examples.cat_chain Examples.first_item 1 (range 50)
      [lit "the"; lit "cat"]
    = Ok ([lit "the"; lit "cat"] ++ suffix)
    /\ (length suffix <= Z.to_nat 50)%nat
    /\ len ([lit "the"; lit "cat"] ++ suffix)
       <= len [lit "the"; lit "cat"] + Z.max 0 50.
Proof.
  destruct generate_stops_within_max_words as [H _].
  apply (H Examples.cat_chain Examples.first_item 1%nat 50).
  repeat constructor; discriminate.
Defined.

(** C9: in every run of [generate] that answers, every token after the
    seed is among the successors that the store holds for the window right
    before it, a window of [N] tokens when the seed has [N].  For
    [markov.py] the seed is a key of the chain, and on a chain learned from
    messages the token was observed right after that window in one of them.
    For [new_bot.py] the successors are what the row of the window
    evaluates to. *)
Theorem generated_tokens_are_observed_successors :
  (forall (chain : Markov.Chain) (rnd : oracle) (max_words : Z)
          (out : list str),
     Markov.generate_tokens chain rnd max_words = Ok out ->
     exists seed suffix,
       out = seed ++ suffix
       /\ In seed (map fst chain)
       /\ drawn_from chain seed suffix
       /\ ((LearnSpec.N <= length seed)%nat ->
           forall j, (j < length suffix)%nat ->
             length (window_before LearnSpec.N (length seed + j) out)
             = LearnSpec.N))
  /\ (forall (texts : list str) (chain : Markov.Chain),
        learn_all [] texts = Ok chain ->
        forall context successors t,
          dict_get tuple_eqb chain context = Some successors ->
          In t successors -> observed_in texts context t)
  /\ (forall isprintable (d : NewBot.db) (rnd : oracle) (max_words : Z)
             (out : list str),
        NewBot.generate_tokens isprintable d rnd max_words = Ok out ->
        exists seed suffix,
          out = seed ++ suffix
          /\ (exists key, NewBot.get_random_key d (rnd O) = Ok key
                          /\ seed = NewBot.items_of key)
          /\ drawn_from_rows isprintable (NewBot.chain d) seed suffix).
Proof.
  split.
  { intros chain rnd max_words out H. unfold Markov.generate_tokens in H.
    destruct (choice (rnd O) (map fst chain)) as [seed|] eqn:Hseed;
      cbn [bind] in H; [|discriminate].
    destruct (GenerateFacts.generate_loop_sound _ _ _ _ _ _ H)
      as (suffix & -> & _ & Hdrawn).
    exists seed, suffix. repeat split; auto.
    - eapply choice_In; eauto.
    - intros Hn j Hj. unfold window_before.
      rewrite length_skipn, length_firstn, length_app. lia. }
  split.
  { intros texts chain H context successors t Hget Hin.
    destruct (LearnInvariants.learn_all_reachable texts)
      as (chain' & H' & Hobs & _).
    rewrite H in H'. injection H' as <-.
    apply (dict_get_In _ tuple_eqb_eq) in Hget. eapply Hobs; eauto. }
  intros isprintable d rnd max_words out H.
  unfold NewBot.generate_tokens in H.
  destruct (NewBot.get_random_key d (rnd O)) as [key|] eqn:Hseed;
    cbn [bind] in H; [|discriminate].
  destruct (NewBotFacts.rows_generate_loop_sound _ _ _ _ _ _ _ H)
    as (suffix & -> & _ & Hdrawn & _).
  exists (NewBot.items_of key), suffix. eauto.
Qed.

Lemma generated_tokens_are_observed_successors_witness :
  exists seed suffix,
    [lit "the"; lit "cat"; lit "sat"; []] = seed ++ suffix
    /\ In seed (map fst Examples.cat_chain)
    /\ drawn_from Examples.cat_chain seed suffix
    /\ ((LearnSpec.N <= length seed)%nat ->
        forall j, (j < length suffix)%nat ->
          length (window_before LearnSpec.N (length seed + j)
                    [lit "the"; lit "cat"; lit "sat"; []])
          = LearnSpec.N).
Proof.
  destruct generated_tokens_are_observed_successors as [H _].
  apply (H Examples.cat_chain Examples.first_item 50).
  reflexivity.
Defined.

(** C10: the windows that learning uses as keys lie before the appended
    sentinel, so no key holds the empty string: this holds of every
    observation of a tokenized message, is kept by [learn] on the chain of
    [markov.py] and by [build_markov_chain] on the rows of [new_bot.py], and
    so holds of every chain learned from messages.  Hence, once the
    sentinel is appended, the next window is not a key and generation
    stops. *)
Theorem keys_never_hold_the_sentinel :
  (forall message_text : str,
     Forall (fun o => ~ In sentinel (fst o))
            (LearnSpec.observations (Markov.tokenize message_text)))
  /\ (forall (chain : Markov.Chain) (message_text : str),
        keys_without_sentinel chain ->
        exists chain',
          Markov.learn chain (Markov.tokenize message_text) = Ok chain'
          /\ keys_without_sentinel chain')
  /\ (forall texts : list str,
        exists chain,
          learn_all [] texts = Ok chain /\ keys_without_sentinel chain)
  /\ (forall (chain : Markov.Chain) rnd k turns (text : list str),
        keys_without_sentinel chain ->
        dict_get tuple_eqb chain
          (slice_from (text ++ [sentinel]) (- Markov.MARKOV_ORDER)) = None
        /\ Markov.generate_loop chain rnd k turns (text ++ [sentinel])
           = Ok (text ++ [sentinel]))
  /\ (forall isprintable (d : NewBot.db) (message_text : str),
        rows_learned isprintable (NewBot.chain d) ->
        valid_str message_text ->
        exists d',
          NewBot.build_markov_chain isprintable d (split message_text) = Ok d'
          /\ rows_learned isprintable (NewBot.chain d')).
Proof.
  split; [apply LearnInvariants.observations_without_sentinel|].
  split.
  { intros chain message_text Hk.
    destruct (MarkovFacts.learn_total chain (Markov.tokenize message_text))
      as (chain' & H).
    exists chain'. split; [assumption|].
    eapply LearnInvariants.learn_keys_without_sentinel; eauto. }
  split.
  { intros texts.
    destruct (LearnInvariants.learn_all_reachable texts)
      as (chain & H & _ & Hk & _).
    eauto. }
  split.
  { intros chain rnd k turns text Hk. split.
    - now apply GenerateFacts.window_with_sentinel_absent.
    - now apply GenerateFacts.generate_loop_after_sentinel. }
  intros isprintable d message_text Hrows Hv.
  destruct (NewBotFacts.build_learned isprintable d message_text Hrows Hv)
    as (d' & H & Hrows' & _).
  eauto.
Qed.

Lemma keys_never_hold_the_sentinel_witness :
  exists chain',
    Markov.learn Examples.cat_chain (Markov.tokenize (lit "the cat ran"))
    = Ok chain'
    /\ keys_without_sentinel chain'.
Proof.
  destruct keys_never_hold_the_sentinel as (_ & H & _).
  apply (H Examples.cat_chain (lit "the cat ran")).
  repeat constructor; simpl; intuition discriminate.
Defined.

End Claims.

(* ================================================================== *)
(** * More about learning in [markov.py] *)
(* ================================================================== *)

Module LearnMore.
Import Py PyFacts Markov Invariants MarkovFacts LearnInvariants.

(** An observation keeps every entry and only appends to its list. *)
Lemma add_observation_grows (chain chain' : Chain) key next :
  add_observation chain key next = Ok chain' ->
  forall k successors,
    dict_get tuple_eqb chain k = Some successors ->
    exists more, dict_get tuple_eqb chain' k = Some (successors ++ more).
Proof.
  rewrite add_observation_cases. intros [= <-] k successors Hget.
  destruct (dict_get tuple_eqb chain key) as [s|] eqn:E.
  - destruct (str_in next s).
    + exists []. now rewrite app_nil_r.
    + destruct (tuple_eqb k key) eqn:Ek.
      * apply tuple_eqb_eq in Ek. subst k.
        rewrite E in Hget. injection Hget as <-.
        exists [next]. apply (dict_get_set_same _ tuple_eqb_eq).
      * apply tuple_eqb_neq in Ek. exists [].
        rewrite (dict_get_set_other _ tuple_eqb_eq) by assumption.
        now rewrite app_nil_r.
  - exists []. rewrite dict_get_app_absent, Hget. now rewrite app_nil_r.
Qed.

Lemma observe_all_grows (obs : list (Context * Token)) :
  forall chain chain',
    LearnSpec.observe_all add_observation chain obs = Ok chain' ->
    forall k successors,
      dict_get tuple_eqb chain k = Some successors ->
      exists more, dict_get tuple_eqb chain' k = Some (successors ++ more).
Proof.
  induction obs as [|[key next] r IH]; intros chain chain' H k successors Hget;
    simpl in H.
  - injection H as <-. exists []. now rewrite app_nil_r.
  - destruct (add_observation chain key next) as [c1|] eqn:E; [|discriminate].
    simpl in H.
    destruct (add_observation_grows _ _ _ _ E _ _ Hget) as (m1 & H1).
    destruct (IH _ _ H _ _ H1) as (m2 & H2).
    exists (m1 ++ m2). now rewrite app_assoc.
Qed.

Lemma recorded_grows (chain chain' : Chain) :
  (forall k successors,
     dict_get tuple_eqb chain k = Some successors ->
     exists more, dict_get tuple_eqb chain' k = Some (successors ++ more)) ->
  forall k t, recorded chain k t -> recorded chain' k t.
Proof.
  intros Hg k t (s & Hget & Hin).
  destruct (Hg _ _ Hget) as (more & H'). exists (s ++ more).
  split; [assumption | apply in_or_app; now left].
Qed.

(** After the observations, each of them is recorded. *)
Lemma observe_all_records (obs : list (Context * Token)) :
  forall chain chain',
    LearnSpec.observe_all add_observation chain obs = Ok chain' ->
    Forall (fun o => recorded chain' (fst o) (snd o)) obs.
Proof.
  induction obs as [|[key next] r IH]; intros chain chain' H; simpl in H;
    [constructor|].
  destruct (add_observation chain key next) as [c1|] eqn:E; [|discriminate].
  simpl in H. constructor; [|eapply IH; eauto].
  simpl. apply (recorded_grows c1 chain').
  - now apply (observe_all_grows r).
  - now apply (add_observation_recorded chain).
Qed.

(** An observation that is recorded changes nothing. *)
Lemma add_observation_recorded_noop (chain : Chain) key next :
  recorded chain key next -> add_observation chain key next = Ok chain.
Proof.
  intros (s & Hget & Hin). rewrite add_observation_cases, Hget.
  apply str_in_In in Hin. now rewrite Hin.
Qed.

Lemma observe_all_recorded_noop (obs : list (Context * Token)) (chain : Chain) :
  Forall (fun o => recorded chain (fst o) (snd o)) obs ->
  LearnSpec.observe_all add_observation chain obs = Ok chain.
Proof.
  induction 1 as [|[key next] r Ho Hr IH]; simpl; [reflexivity|].
  rewrite add_observation_recorded_noop by exact Ho. simpl. exact IH.
Qed.

(** One observation keeps the successor lists free of repetitions. *)
Lemma add_observation_distinct (chain chain' : Chain) key next :
  add_observation chain key next = Ok chain' ->
  successors_distinct chain -> successors_distinct chain'.
Proof.
  rewrite add_observation_cases. intros [= <-] Hd.
  unfold successors_distinct in *.
  destruct (dict_get tuple_eqb chain key) as [s|] eqn:E.
  - destruct (str_in next s) eqn:Hin; [assumption|].
    apply Forall_forall. intros [k v] Hkv.
    apply (dict_set_entries _ tuple_eqb_eq) in Hkv as [Hold|[-> ->]].
    + rewrite Forall_forall in Hd. exact (Hd _ Hold).
    + simpl. apply (dict_get_In _ tuple_eqb_eq) in E.
      rewrite Forall_forall in Hd. specialize (Hd _ E). simpl in Hd.
      apply NoDup_app; [assumption | repeat constructor; auto |].
      intros x Hx [<-|[]]. apply str_in_In in Hx. congruence.
  - apply Forall_app. split; [assumption|].
    repeat constructor; auto.
Qed.

Lemma observations_of_order (tokens : list Token) :
  Forall (fun o => length (fst o) = LearnSpec.N)
         (LearnSpec.observations tokens).
Proof.
  apply Forall_forall. intros o Ho. unfold LearnSpec.observations in Ho.
  apply in_map_iff in Ho as (i & <- & Hi). apply in_seq in Hi. cbn [fst].
  apply window_length. lia.
Qed.

Lemma keys_of_order_keys (chain : Chain) :
  keys_of_order chain
  <-> Forall (fun k => length k = LearnSpec.N) (map fst chain).
Proof. unfold keys_of_order. now rewrite Forall_map. Qed.

Lemma learn_keys_of_order (chain chain' : Chain) (tokens : list Token) :
  keys_of_order chain -> learn chain tokens = Ok chain' ->
  keys_of_order chain'.
Proof.
  rewrite learn_observe_all.
  apply (observe_all_invariant add_observation keys_of_order
           (fun o => length (fst o) = LearnSpec.N)).
  - intros c c' key next Hc Hq H. rewrite keys_of_order_keys in *.
    eapply add_observation_keys_P; eauto.
  - apply observations_of_order.
Qed.

Lemma learn_successors_distinct (chain chain' : Chain) (tokens : list Token) :
  successors_distinct chain -> learn chain tokens = Ok chain' ->
  successors_distinct chain'.
Proof.
  rewrite learn_observe_all.
  apply (observe_all_invariant add_observation successors_distinct
           (fun _ => True)).
  - intros c c' key next Hc _ H. eapply add_observation_distinct; eauto.
  - apply Forall_forall. auto.
Qed.

End LearnMore.

(* ================================================================== *)
(** * The rows of [new_bot.py] follow the chain of [markov.py] *)
(* ================================================================== *)

Module Simulation.
Import Py PyFacts ReprFacts Invariants MarkovFacts LearnInvariants.

Section Rows.
Variable isprintable : char -> bool.

Lemma str_tuple_eqb (k1 k2 : list str) :
  Forall valid_str k1 -> Forall valid_str k2 ->
  str_eqb (str_tuple isprintable k1) (str_tuple isprintable k2)
  = tuple_eqb k1 k2.
Proof.
  intros H1 H2. destruct (tuple_eqb k1 k2) eqn:E.
  - apply tuple_eqb_eq in E. subst. apply str_eqb_refl.
  - apply str_eqb_neq. intros Heq. apply tuple_eqb_neq in E. apply E.
    eapply str_tuple_inj; eauto.
Qed.

(** Looking a key up among the rows is looking it up in the chain. *)
Lemma dict_get_rows_of (chain : Markov.Chain) (key : list str) :
  chain_valid chain -> Forall valid_str key ->
  dict_get str_eqb (rows_of isprintable chain) (str_tuple isprintable key)
  = option_map (str_list isprintable) (dict_get tuple_eqb chain key).
Proof.
  intros Hc Hk. induction Hc as [|[k v] r [Hkv _] Hr IH]; simpl; [reflexivity|].
  simpl in Hkv. rewrite str_tuple_eqb by assumption.
  destruct (tuple_eqb key k); [reflexivity | exact IH].
Qed.

Lemma dict_set_rows_of (chain : Markov.Chain) (key : list str)
    (successors : list str) :
  chain_valid chain -> Forall valid_str key ->
  dict_mem tuple_eqb chain key = true ->
  dict_set str_eqb (rows_of isprintable chain) (str_tuple isprintable key)
    (str_list isprintable successors)
  = rows_of isprintable (dict_set tuple_eqb chain key successors).
Proof.
  intros Hc Hk. unfold dict_mem.
  induction Hc as [|[k v] r [Hkv _] Hr IH]; simpl; [discriminate|].
  simpl in Hkv. rewrite str_tuple_eqb by assumption.
  destruct (tuple_eqb key k) eqn:E; simpl; [reflexivity|].
  intros Hmem. now rewrite IH.
Qed.

(** One observation does to the rows what it does to the chain. *)
Lemma add_observation_rows_of (chain : Markov.Chain) (key : list str)
    (next : str) :
  chain_valid chain -> Forall valid_str key -> valid_str next ->
  NewBot.add_observation isprintable (rows_of isprintable chain) key next
  = bind (Markov.add_observation chain key next)
         (fun chain' => Ok (rows_of isprintable chain')).
Proof.
  intros Hc Hk Hn. rewrite add_observation_cases. cbn [bind].
  unfold NewBot.add_observation. rewrite dict_get_rows_of by assumption.
  destruct (dict_get tuple_eqb chain key) as [s|] eqn:E; cbn [option_map].
  - assert (Hs : Forall valid_str s).
    { apply (dict_get_In _ tuple_eqb_eq) in E.
      unfold chain_valid in Hc. rewrite Forall_forall in Hc.
      exact (proj2 (Hc _ E)). }
    rewrite eval_str_list by assumption. cbn [bind].
    destruct (str_in next s); [reflexivity|].
    rewrite dict_set_rows_of; auto.
    unfold dict_mem. now rewrite E.
  - unfold rows_of. now rewrite map_app.
Qed.

Lemma add_observation_chain_valid (chain chain' : Markov.Chain) key next :
  Markov.add_observation chain key next = Ok chain' ->
  Forall valid_str key -> valid_str next ->
  chain_valid chain -> chain_valid chain'.
Proof.
  intros H Hk Hn Hc. unfold chain_valid in *.
  rewrite Forall_forall in Hc. apply Forall_forall.
  intros [k v] Hin.
  destruct (add_observation_entries _ _ _ _ H _ _ Hin)
    as [Hold|(-> & old & Hold & ->)].
  - exact (Hc _ Hold).
  - simpl. split; [assumption|].
    apply Forall_app. split; [|now constructor].
    destruct Hold as [->|Hold]; [constructor | exact (proj2 (Hc _ Hold))].
Qed.

Lemma observe_all_rows_of (obs : list (list str * str)) :
  Forall (fun o => Forall valid_str (fst o) /\ valid_str (snd o)) obs ->
  forall chain, chain_valid chain ->
  exists chain',
    LearnSpec.observe_all Markov.add_observation chain obs = Ok chain'
    /\ LearnSpec.observe_all (NewBot.add_observation isprintable)
         (rows_of isprintable chain) obs
       = Ok (rows_of isprintable chain')
    /\ chain_valid chain'.
Proof.
  induction 1 as [|[key next] r [Hk Hn] Hr IH]; intros chain Hc; simpl.
  - eauto.
  - simpl in Hk, Hn. rewrite add_observation_rows_of by assumption.
    destruct (Markov.add_observation chain key next) as [c1|] eqn:E.
    + cbn [bind]. apply IH. eapply add_observation_chain_valid; eauto.
    + rewrite add_observation_cases in E. discriminate.
Qed.

Lemma observations_all_valid (tokens : list str) :
  Forall valid_str tokens ->
  Forall (fun o => Forall valid_str (fst o) /\ valid_str (snd o))
         (LearnSpec.observations tokens).
Proof.
  intros Hv. pose proof (observations_valid tokens Hv) as Hk.
  rewrite Forall_forall in *. intros o Ho. split; [now apply Hk|].
  unfold LearnSpec.observations in Ho.
  apply in_map_iff in Ho as (i & <- & _). cbn [snd].
  destruct (nth_in_or_default (i + LearnSpec.N) tokens []) as [Hin| ->].
  - now apply Hv.
  - constructor.
Qed.

(** Learning a message does to the rows what it does to the chain. *)
Lemma build_follows_learn (chain : Markov.Chain) (st : list (str * Z))
    (message_text : str) :
  chain_valid chain -> valid_str message_text ->
  exists chain',
    Markov.learn chain (Markov.tokenize message_text) = Ok chain'
    /\ NewBot.build_markov_chain isprintable
         {| NewBot.chain := rows_of isprintable chain; NewBot.stats := st |}
         (split message_text)
       = Ok {| NewBot.chain := rows_of isprintable chain';
               NewBot.stats := st |}
    /\ chain_valid chain'.
Proof.
  intros Hc Hv.
  destruct (observe_all_rows_of
              (LearnSpec.observations (Markov.tokenize message_text))
              (observations_all_valid _ (tokenize_valid _ Hv)) chain Hc)
    as (chain' & Hl & Hb & Hc').
  exists chain'. rewrite learn_observe_all.
  split; [assumption|]. split; [|assumption].
  rewrite NewBotFacts.build_observe_all. cbn [NewBot.chain NewBot.stats].
  unfold Markov.tokenize in Hb. now rewrite Hb.
Qed.

Lemma build_all_follows_learn_all (texts : list str) :
  Forall valid_str texts ->
  forall chain st, chain_valid chain ->
  exists chain',
    learn_all chain texts = Ok chain'
    /\ build_all isprintable
         {| NewBot.chain := rows_of isprintable chain; NewBot.stats := st |}
         texts
       = Ok {| NewBot.chain := rows_of isprintable chain';
               NewBot.stats := st |}.
Proof.
  induction 1 as [|t rest Ht Hrest IH]; intros chain st Hc; simpl.
  - eauto.
  - destruct (build_follows_learn chain st t Hc Ht) as (c1 & -> & -> & Hc1).
    cbn [bind]. now apply IH.
Qed.

(** The rows keep their keys pairwise distinct. *)
Lemma rows_add_observation_NoDup (rows rows' : list (str * str)) key next :
  NewBot.add_observation isprintable rows key next = Ok rows' ->
  NoDup (map fst rows) -> NoDup (map fst rows').
Proof.
  unfold NewBot.add_observation.
  set (ks := str_tuple isprintable key).
  destruct (dict_get str_eqb rows ks) as [col|] eqn:E.
  - destruct (eval col) as [v|]; cbn [bind]; [|discriminate].
    assert (Hset : forall x, NoDup (map fst rows) ->
                     NoDup (map fst (dict_set str_eqb rows ks x))).
    { intros x Hnd. now rewrite (dict_set_keys_present _ _ _ _ _ E). }
    destruct v as [x|t|l].
    + destruct (contains x next); [|discriminate]. now intros [= <-].
    + destruct (str_in next t); [|discriminate]. now intros [= <-].
    + destruct (str_in next l); intros [= <-]; auto.
  - intros [= <-] Hnd. rewrite map_app. simpl.
    apply (dict_get_None _ str_eqb_eq) in E.
    apply NoDup_app; [assumption | repeat constructor; auto |].
    intros x Hx [<-|[]]. contradiction.
Qed.

Lemma build_markov_chain_NoDup (d d' : NewBot.db) (words : list str) :
  NewBot.build_markov_chain isprintable d words = Ok d' ->
  NoDup (map fst (NewBot.chain d)) -> NoDup (map fst (NewBot.chain d')).
Proof.
  rewrite NewBotFacts.build_observe_all.
  destruct (LearnSpec.observe_all _ _ _) as [rows|] eqn:E; cbn [bind];
    [|discriminate].
  intros [= <-] Hnd. cbn [NewBot.chain].
  refine (observe_all_invariant (NewBot.add_observation isprintable)
            (fun r => NoDup (map fst r)) (fun _ => True) _ _ _ _ _ Hnd E).
  - intros r r' k t Hr _ H. eapply rows_add_observation_NoDup; eauto.
  - apply Forall_forall. auto.
Qed.
End Rows.

End Simulation.

(* ================================================================== *)
(** * The statistics *)
(* ================================================================== *)

Module StatsMore.
Import Py PyFacts ReprFacts Invariants.

(** ** Counting commas, as [wisdom_command] does *)

Lemma commas_app (a b : str) : commas (a ++ b) = (commas a + commas b)%nat.
Proof. unfold commas. now rewrite filter_app, length_app. Qed.

Lemma commas_removed (s : str) :
  (commas s + length (remove_char 44%N s) = length s)%nat.
Proof.
  unfold commas, remove_char. induction s as [|c r IH]; simpl; [reflexivity|].
  destruct (c =? 44)%N; simpl; lia.
Qed.

Lemma commas_plus_one_commas (s : str) :
  NewBot.commas_plus_one s = Z.of_nat (commas s) + 1.
Proof.
  unfold NewBot.commas_plus_one, len.
  pose proof (commas_removed s). lia.
Qed.

Lemma commas_none (s : str) : ~ In 44%N s -> commas s = O.
Proof.
  unfold commas. induction s as [|c r IH]; simpl; [reflexivity|].
  intros H. destruct (N.eqb_spec c 44) as [->|_].
  - exfalso. apply H. now left.
  - apply IH. intros Hin. apply H. now right.
Qed.

Lemma hexdigit_no_comma (d : N) : hexdigit d <> 44%N.
Proof. unfold hexdigit. destruct (N.ltb_spec d 10); lia. Qed.

Lemma hex_fixed_no_comma (w : nat) : forall n, ~ In 44%N (hex_fixed w n).
Proof.
  induction w as [|w IH]; intros n; simpl; [tauto|].
  intros [H|H]; [now apply hexdigit_no_comma in H | now apply IH in H].
Qed.

Section Displays.
Variable isprintable : char -> bool.

Lemma repr_char_no_comma (q c : char) :
  q <> 44%N -> c <> 44%N -> ~ In 44%N (repr_char isprintable q c).
Proof.
  intros Hq Hc. unfold repr_char.
  assert (Hx : forall w (e : char), e <> 44%N ->
                 ~ In 44%N (92 :: e :: hex_fixed w c)%N).
  { intros w e He [H|[H|H]]; [discriminate | congruence |].
    now apply hex_fixed_no_comma in H. }
  assert (H1 : ~ In 44%N [c]) by (intros [H|[]]; congruence).
  assert (H2 : forall e : char, e <> 44%N -> ~ In 44%N [92; e]%N).
  { intros e He [H|[H|[]]]; [discriminate | congruence]. }
  repeat match goal with
         | |- context [if ?b then _ else _] => destruct b
         end;
    auto; try (apply H2; discriminate); apply Hx; discriminate.
Qed.

Lemma repr_str_commas (s : str) :
  ~ In 44%N s -> commas (repr_str isprintable s) = O.
Proof.
  intros Hs. apply commas_none. unfold repr_str.
  assert (Hq : quote_of s <> 44%N).
  { destruct (quote_of_cases s) as [-> | ->]; discriminate. }
  intros [H|H]; [congruence|].
  apply in_app_or in H as [H|[H|[]]]; [|congruence].
  apply in_flat_map in H as (c & Hc & H).
  apply (repr_char_no_comma (quote_of s) c); auto.
  intros ->. contradiction.
Qed.

Lemma join_commas (l : list str) :
  Forall (fun t => ~ In 44%N t) l ->
  commas (join comma_space (map (repr_str isprintable) l))
  = (length l - 1)%nat.
Proof.
  induction 1 as [|x r Hx Hr IH]; [reflexivity|].
  destruct r as [|y r'].
  - simpl. now apply repr_str_commas.
  - change (join comma_space (map (repr_str isprintable) (x :: y :: r')))
      with (repr_str isprintable x ++ comma_space
            ++ join comma_space (map (repr_str isprintable) (y :: r'))).
    rewrite !commas_app, IH, repr_str_commas by assumption.
    simpl. lia.
Qed.

(** The text of a non-empty list of comma-free strings has one comma less
    than the list has items. *)
Lemma str_list_commas (l : list str) :
  l <> [] -> Forall (fun t => ~ In 44%N t) l ->
  NewBot.commas_plus_one (str_list isprintable l) = len l.
Proof.
  intros Hne Hl. rewrite commas_plus_one_commas. unfold str_list.
  rewrite !commas_app, join_commas by assumption.
  change (commas [91%N]) with O. change (commas [93%N]) with O.
  unfold len. destruct l; [congruence|]. cbn [length]. lia.
Qed.

Lemma sum_of_rows (chain : Markov.Chain) :
  successors_nonempty chain ->
  Forall (fun kv => Forall (fun t => ~ In 44%N t) (snd kv)) chain ->
  map (fun row => NewBot.commas_plus_one (snd row)) (rows_of isprintable chain)
  = map (fun kv => len (snd kv)) chain.
Proof.
  intros Hne Hc. unfold rows_of. rewrite map_map.
  apply map_ext_in. intros [k v] Hin. simpl.
  unfold successors_nonempty in Hne. rewrite Forall_forall in Hne, Hc.
  apply str_list_commas; [exact (Hne _ Hin) | exact (Hc _ Hin)].
Qed.
End Displays.

(** ** The counters of [new_bot.py] *)

Lemma get_stat_update_other (d : NewBot.db) (key other : str) (value : Z) :
  key <> other ->
  NewBot.get_stat (NewBot.update_stat d other value) key
  = NewBot.get_stat d key.
Proof.
  intros Hne. unfold NewBot.get_stat, NewBot.update_stat. cbn [NewBot.stats].
  induction (NewBot.stats d) as [|[k v] r IH]; simpl; [reflexivity|].
  destruct (str_eqb k other) eqn:Ek; simpl.
  - apply str_eqb_eq in Ek. subst k.
    destruct (str_eqb key other) eqn:E; [|exact IH].
    apply str_eqb_eq in E. contradiction.
  - destruct (str_eqb key k); [reflexivity | exact IH].
Qed.

Lemma get_stat_same_stats (d d' : NewBot.db) (key : str) :
  NewBot.stats d' = NewBot.stats d ->
  NewBot.get_stat d' key = NewBot.get_stat d key.
Proof. intros H. unfold NewBot.get_stat. now rewrite H. Qed.

(** ** [wisdom] of [markov.py] on chains with successors *)

Lemma sum_at_least_length (l : list (list str)) :
  Forall (fun v => v <> []) l -> len l <= Markov.sum (map (fun v => len v) l).
Proof.
  induction 1 as [|v r Hv Hr IH].
  - unfold len, Markov.sum. simpl. lia.
  - simpl map. rewrite HandlerFacts.sum_cons. unfold len in *.
    simpl length. destruct v; [congruence|]. simpl length. lia.
Qed.

End StatsMore.

(* ================================================================== *)
(** * More about splitting, joining and trimming *)
(* ================================================================== *)

Module TextMore.
Import Py PyFacts Invariants TextFacts.

Lemma lstrip_suffix (s : str) : exists pre, s = pre ++ lstrip s.
Proof.
  induction s as [|c r (pre & IH)]; simpl; [now exists []|].
  destruct (isspace c).
  - exists (c :: pre). simpl. now f_equal.
  - now exists [].
Qed.

Lemma rstrip_prefix (s : str) : exists post, s = rstrip s ++ post.
Proof.
  unfold rstrip. destruct (lstrip_suffix (rev s)) as (pre & H).
  exists (rev pre). rewrite <- rev_app_distr, <- H. now rewrite rev_involutive.
Qed.

(** What [strip] answers does not start with whitespace. *)
Lemma strip_first (s : str) :
  strip s = [] \/ exists c r, strip s = c :: r /\ isspace c = false.
Proof.
  unfold strip. destruct (lstrip_head s) as [->|(c & r & -> & Hc)].
  - now left.
  - destruct (rstrip_prefix (c :: r)) as (post & H).
    destruct (rstrip (c :: r)) as [|c' r']; [now left|].
    right. injection H as -> _. eauto.
Qed.

(** ** [split] undoes [join] *)

Lemma split_from_run (w : str) : forall cur rest,
  Forall (fun c => isspace c = false) w ->
  split_from cur (w ++ rest) = split_from (cur ++ w) rest.
Proof.
  induction w as [|c w IH]; intros cur rest Hw; simpl.
  - now rewrite app_nil_r.
  - inversion Hw as [|? ? Hc Hw']; subst. rewrite Hc.
    rewrite IH by assumption. now rewrite <- app_assoc.
Qed.

Lemma split_join_from (ws : list str) :
  Forall word ws -> split (join (lit " ") ws) = ws.
Proof.
  unfold split. induction 1 as [|w r [Hne Hw] Hr IH]; [reflexivity|].
  destruct r as [|w2 r'].
  - cbn [join]. rewrite <- (app_nil_r w) at 1.
    rewrite split_from_run by assumption. simpl.
    destruct w; [congruence | reflexivity].
  - change (join (lit " ") (w :: w2 :: r'))
      with (w ++ lit " " ++ join (lit " ") (w2 :: r')).
    rewrite split_from_run by assumption.
    change (lit " " ++ join (lit " ") (w2 :: r'))
      with (32%N :: join (lit " ") (w2 :: r')).
    cbn [app split_from]. change (isspace 32) with true. cbn iota.
    destruct w; [congruence|]. now rewrite IH.
Qed.

Lemma split_trailing_space (s : str) :
  split (s ++ lit " ") = split s.
Proof.
  unfold split. generalize (@nil N) as cur.
  induction s as [|c r IH]; intros cur; simpl.
  - change (isspace 32) with true. cbn iota. now destruct cur.
  - destruct (isspace c); [destruct cur|]; now rewrite ?IH.
Qed.

End TextMore.

(* ================================================================== *)
(** * More about generation in [markov.py] *)
(* ================================================================== *)

Module GenerateMore.
Import Py PyFacts Markov Invariants GenerateFacts.

Lemma sentinel_only_last_free (text : list Token) :
  ~ In sentinel text -> sentinel_only_last text.
Proof.
  intros H j Hj Heq. apply H. rewrite <- Heq. apply nth_In. lia.
Qed.

Lemma sentinel_only_last_snoc (text : list Token) (w : Token) :
  ~ In sentinel text -> sentinel_only_last (text ++ [w]).
Proof.
  intros H j Hj Heq. rewrite length_app in Hj. simpl in Hj.
  rewrite app_nth1 in Heq by lia.
  apply H. rewrite <- Heq. apply nth_In. lia.
Qed.

Lemma generate_loop_sentinel_last (chain : Chain) (rnd : oracle)
    (turns : list Z) :
  keys_without_sentinel chain ->
  forall k text out,
    ~ In sentinel text ->
    generate_loop chain rnd k turns text = Ok out ->
    sentinel_only_last out.
Proof.
  intros Hk. induction turns as [|t rest IH]; intros k text out Ht H;
    cbn [generate_loop] in H.
  - injection H as <-. now apply sentinel_only_last_free.
  - destruct (dict_get tuple_eqb chain (slice_from text (- MARKOV_ORDER)))
      as [successors|] eqn:Hget.
    + destruct (choice (rnd k) successors) as [w|] eqn:Hc; cbn [bind] in H;
        [|discriminate].
      destruct w as [|c w'].
      * change (@nil N) with sentinel in H.
        rewrite generate_loop_after_sentinel in H by assumption.
        injection H as <-. now apply sentinel_only_last_snoc.
      * eapply IH; [|exact H].
        intros Hin. apply in_app_or in Hin as [Hin|[Hin|[]]];
          [contradiction | discriminate].
    + injection H as <-. now apply sentinel_only_last_free.
Qed.

End GenerateMore.

(* ================================================================== *)
(** * More about loading and about the handler of [markov.py] *)
(* ================================================================== *)

Module HandlerMore.
Import Py PyFacts Markov Invariants MarkovFacts LearnInvariants.

Lemma choice_empty {A} (r : nat) : choice r (@nil A) = Raise IndexError.
Proof. unfold choice. now destruct (r mod length (@nil A))%nat. Qed.






(** A message of fewer than [MARKOV_ORDER] words teaches nothing. *)
Lemma learn_short (chain : Chain) (message_text : str) :
  (length (split message_text) < LearnSpec.N)%nat ->
  learn chain (tokenize message_text) = Ok chain.
Proof.
  intros H. rewrite learn_observe_all.
  replace (LearnSpec.observations (tokenize message_text)) with
    (@nil (list str * str)); [reflexivity|].
  symmetry. apply length_zero_iff_nil. rewrite observations_length.
  unfold tokenize. rewrite length_app. simpl. lia.
Qed.

End HandlerMore.

(* ================================================================== *)
(** * The two generators draw the same tokens *)
(* ================================================================== *)

Module GenerateSim.
Import Py PyFacts ReprFacts Invariants GenerateFacts Simulation.

Lemma Forall_skipn_valid (n : nat) (l : list str) :
  Forall valid_str l -> Forall valid_str (skipn n l).
Proof.
  intros H. rewrite <- (firstn_skipn n l) in H.
  now apply Forall_app in H.
Qed.

Lemma generate_loop_rows_of (isprintable : char -> bool)
    (chain : Markov.Chain) (rnd : oracle) (turns : list Z) :
  chain_valid chain -> keys_without_sentinel chain ->
  forall k text,
    Forall valid_str text ->
    NewBot.generate_loop isprintable (rows_of isprintable chain) rnd k turns
      text
    = Markov.generate_loop chain rnd k turns text.
Proof.
  intros Hc Hk. induction turns as [|t rest IH]; intros k text Ht;
    cbn [NewBot.generate_loop Markov.generate_loop]; [reflexivity|].
  change NewBot.MARKOV_ORDER with Markov.MARKOV_ORDER.
  rewrite dict_get_rows_of;
    [|assumption | unfold slice_from; now apply Forall_skipn_valid].
  destruct (dict_get tuple_eqb chain (slice_from text (- Markov.MARKOV_ORDER)))
    as [s|] eqn:E; cbn [option_map]; [|reflexivity].
  assert (Hs : Forall valid_str s).
  { apply (dict_get_In _ tuple_eqb_eq) in E.
    unfold chain_valid in Hc. rewrite Forall_forall in Hc.
    exact (proj2 (Hc _ E)). }
  rewrite eval_str_list by assumption.
  unfold str_list at 1. cbn [app bind NewBot.items_of].
  destruct (choice (rnd k) s) as [w|e] eqn:Hw; cbn [bind]; [|reflexivity].
  assert (Hvw : valid_str w).
  { apply choice_In in Hw. rewrite Forall_forall in Hs. now apply Hs. }
  destruct w as [|c w'].
  - change (@nil N) with sentinel.
    now rewrite generate_loop_after_sentinel.
  - apply IH. apply Forall_app. split; [assumption | now constructor].
Qed.

End GenerateSim.

(* ================================================================== *)
(** * Further properties of the code *)
(* ================================================================== *)

Module Extras.
Import Py PyFacts Invariants.

(** ** Loading and saving in [markov.py] *)

(** X1: [load_markov_chain] reads the two files independently.  After a
    save, if the chain file is missing the chain loads empty and the
    counters load as saved; if the stats file is missing the chain loads as
    saved and both counters load as 0; with neither file the state is the
    empty chain with zero counters. *)
Theorem load_with_missing_files (isprintable : char -> bool)
    (g : Markov.globals) (fs : Markov.files) :
  well_formed (Markov.markov_chain g) ->
  let saved := Markov.save_markov_chain isprintable g fs in
  Markov.load_markov_chain
    {| Markov.CHAIN_FILE := None;
       Markov.STATS_FILE := Markov.STATS_FILE saved |}
  = Ok {| Markov.markov_chain := [];
          Markov.total_messages := Markov.total_messages g;
          Markov.generated_messages := Markov.generated_messages g |}
  /\ Markov.load_markov_chain
       {| Markov.CHAIN_FILE := Markov.CHAIN_FILE saved;
          Markov.STATS_FILE := None |}
     = Ok {| Markov.markov_chain := Markov.markov_chain g;
             Markov.total_messages := 0;
             Markov.generated_messages := 0 |}
  /\ Markov.load_markov_chain
       {| Markov.CHAIN_FILE := None; Markov.STATS_FILE := None |}
     = Ok {| Markov.markov_chain := [];
             Markov.total_messages := 0;
             Markov.generated_messages := 0 |}.
Proof.
  intros [Hnd Hv] saved. split; [reflexivity|]. split; [|reflexivity].
  subst saved. unfold Markov.load_markov_chain, Markov.save_markov_chain.
  cbn [Markov.CHAIN_FILE Markov.STATS_FILE].
  pose proof (PersistenceFacts.serialized_keys_NoDup isprintable _ Hv Hnd)
    as Hnd'.
  rewrite !(dict_of_NoDup _ str_eqb_eq
              (map (Markov.serialize isprintable) (Markov.markov_chain g)))
    by assumption.
  rewrite PersistenceFacts.eval_keys_serialized by assumption.
  reflexivity.
Qed.

Lemma load_with_missing_files_witness :
  Markov.load_markov_chain
    {| Markov.CHAIN_FILE :=
         Markov.CHAIN_FILE
           (Markov.save_markov_chain Examples.all_printable
              Examples.cat_globals Examples.no_files);
       Markov.STATS_FILE := None |}
  = Ok {| Markov.markov_chain := Examples.cat_chain;
          Markov.total_messages := 0;
          Markov.generated_messages := 0 |}.
Proof.
  assert (H : well_formed (Markov.markov_chain Examples.cat_globals)).
  { split.
    - repeat constructor; simpl; intuition discriminate.
    - repeat constructor; vm_compute; reflexivity. }
  exact (proj1 (proj2 (load_with_missing_files Examples.all_printable
                         Examples.cat_globals Examples.no_files H))).
Defined.



(** X3: the keys survive the file.  For every dictionary of tuples of
    strings, the texts [str(key)] that [save_markov_chain] writes are
    pairwise distinct, and [eval] in [load_markov_chain] reads each of them
    back as the tuple it came from; in particular a key holding the empty
    string is not confused with a shorter key. *)
Theorem keys_written_are_read_back (isprintable : char -> bool)
    (chain : Markov.Chain) :
  well_formed chain ->
  NoDup (map fst (map (Markov.serialize isprintable) chain))
  /\ Forall (fun kv =>
               Markov.eval_key (fst (Markov.serialize isprintable kv))
               = Ok (fst kv)) chain.
Proof.
  intros [Hnd Hv]. split.
  - now apply PersistenceFacts.serialized_keys_NoDup.
  - rewrite Forall_forall in *. intros kv Hin. simpl.
    apply PersistenceFacts.eval_key_str_tuple. now apply Hv.
Qed.

Lemma keys_written_are_read_back_witness :
  NoDup (map fst (map (Markov.serialize Examples.all_printable)
                    [([lit "a"; []], [lit "b"]); ([lit "a"], [[]])]))
  /\ Forall (fun kv =>
               Markov.eval_key (fst (Markov.serialize Examples.all_printable kv))
               = Ok (fst kv))
            [([lit "a"; []], [lit "b"]); ([lit "a"], [[]])].
Proof.
  apply keys_written_are_read_back. split.
  - repeat constructor; simpl; intuition discriminate.
  - repeat constructor; vm_compute; reflexivity.
Defined.

(** ** The handler of [markov.py] *)

(** X4: whatever [on_message] does next, it adds exactly one to
    [total_messages]; it adds one to [generated_messages] exactly when it
    goes on to generate (the bot is addressed, or the random draw does not
    skip), also when the generation then fails, and leaves it unchanged
    otherwise. *)
Theorem on_message_counters (isprintable : char -> bool)
    (m : Markov.Message) (rnd : Markov.randomness)
    (g : Markov.globals) (fs : Markov.files) :
  let g' := fst (fst (Markov.on_message isprintable m rnd g fs)) in
  Markov.total_messages g' = Markov.total_messages g + 1
  /\ Markov.generated_messages g'
     = Markov.generated_messages g
       + (if negb (Markov.addressed m) && Markov.skip rnd then 0 else 1).
Proof.
  cbv zeta. split; [apply HandlerFacts.on_message_total_messages|].
  unfold Markov.on_message.
  cbn [Markov.markov_chain Markov.total_messages Markov.generated_messages].
  destruct (MarkovFacts.learn_total (Markov.markov_chain g)
              (Markov.tokenize (Markov.text m))) as (chain & ->).
  destruct (negb (Markov.addressed m) && Markov.skip rnd); cbn [fst].
  - cbn [Markov.generated_messages]. lia.
  - destruct (Markov.generate_markov_text _ _ _); reflexivity.
Qed.

(** X5: while the chain is empty, a message of fewer than two words that
    the bot goes on to answer makes [on_message] stop on the [IndexError] of
    [random.choice]: both counters have been increased, nothing is learned
    and nothing is saved. *)
Theorem on_message_fails_on_empty_chain (isprintable : char -> bool)
    (m : Markov.Message) (rnd : Markov.randomness)
    (g : Markov.globals) (fs : Markov.files) :
  Markov.markov_chain g = [] ->
  (length (split (Markov.text m)) < 2)%nat ->
  negb (Markov.addressed m) && Markov.skip rnd = false ->
  Markov.on_message isprintable m rnd g fs
  = ({| Markov.markov_chain := [];
        Markov.total_messages := Markov.total_messages g + 1;
        Markov.generated_messages := Markov.generated_messages g + 1 |},
     fs, Raise IndexError).
Proof.
  intros Hc Hshort Hgo. unfold Markov.on_message.
  cbn [Markov.markov_chain Markov.total_messages Markov.generated_messages].
  rewrite Hc, HandlerMore.learn_short by exact Hshort.
  rewrite Hgo.
  unfold Markov.generate_markov_text, Markov.generate_tokens.
  cbn [map]. now rewrite HandlerMore.choice_empty.
Qed.

Lemma on_message_fails_on_empty_chain_witness :
  Markov.on_message Examples.all_printable
    {| Markov.text := lit "hello"; Markov.chat_type := lit "private" |}
    {| Markov.skip := true; Markov.draws := Examples.first_item |}
    {| Markov.markov_chain := [];
       Markov.total_messages := 0;
       Markov.generated_messages := 0 |}
    Examples.no_files
  = ({| Markov.markov_chain := [];
        Markov.total_messages := 0 + 1;
        Markov.generated_messages := 0 + 1 |},
     Examples.no_files, Raise IndexError).
Proof.
  apply (on_message_fails_on_empty_chain Examples.all_printable
           {| Markov.text := lit "hello"; Markov.chat_type := lit "private" |}
           {| Markov.skip := true; Markov.draws := Examples.first_item |}
           {| Markov.markov_chain := [];
              Markov.total_messages := 0;
              Markov.generated_messages := 0 |}).
  - reflexivity.
  - vm_compute. lia.
  - reflexivity.
Defined.

(** X6: [on_message] writes the files exactly when it replies.  When it
    replies, the files are the save of the state it leaves, and loading them
    gives that state back (the chain before being a dictionary of strings
    and the message a string); when it does not reply, or stops on an
    exception, the files are untouched, so what was learned is not yet
    saved. *)
Theorem on_message_saves_when_it_replies (isprintable : char -> bool)
    (m : Markov.Message) (rnd : Markov.randomness)
    (g : Markov.globals) (fs : Markov.files) :
  let g' := fst (fst (Markov.on_message isprintable m rnd g fs)) in
  let fs' := snd (fst (Markov.on_message isprintable m rnd g fs)) in
  match snd (Markov.on_message isprintable m rnd g fs) with
  | Ok (Some _) =>
      fs' = Markov.save_markov_chain isprintable g' fs
      /\ (well_formed (Markov.markov_chain g) ->
          valid_str (Markov.text m) ->
          Markov.load_markov_chain fs' = Ok g')
  | _ => fs' = fs
  end.
Proof.
  cbv zeta. unfold Markov.on_message.
  cbn [Markov.markov_chain Markov.total_messages Markov.generated_messages].
  destruct (Markov.learn (Markov.markov_chain g)
              (Markov.tokenize (Markov.text m))) as [chain|] eqn:El;
    [|reflexivity].
  destruct (negb (Markov.addressed m) && Markov.skip rnd); [reflexivity|].
  destruct (Markov.generate_markov_text chain (Markov.draws rnd) 100);
    cbn [fst snd]; [|reflexivity].
  split; [reflexivity|]. intros Hw Hv.
  assert (Hw' : well_formed chain).
  { eapply LearnInvariants.learn_well_formed; [|exact Hw|exact El].
    now apply LearnInvariants.tokenize_valid. }
  apply PersistenceFacts.load_after_save; [exact (proj1 Hw')|exact (proj2 Hw')].
Qed.

Lemma on_message_saves_when_it_replies_witness :
  Markov.load_markov_chain
    (snd (fst (Markov.on_message Examples.all_printable
                 {| Markov.text := lit "the cat ran";
                    Markov.chat_type := lit "private" |}
                 {| Markov.skip := true; Markov.draws := Examples.first_item |}
                 Examples.cat_globals Examples.no_files)))
  = Ok (fst (fst (Markov.on_message Examples.all_printable
                    {| Markov.text := lit "the cat ran";
                       Markov.chat_type := lit "private" |}
                    {| Markov.skip := true;
                       Markov.draws := Examples.first_item |}
                    Examples.cat_globals Examples.no_files))).
Proof.
  pose proof (on_message_saves_when_it_replies Examples.all_printable
                {| Markov.text := lit "the cat ran";
                   Markov.chat_type := lit "private" |}
                {| Markov.skip := true; Markov.draws := Examples.first_item |}
                Examples.cat_globals Examples.no_files) as H.
  cbv zeta in H.
  change (snd (Markov.on_message Examples.all_printable
                 {| Markov.text := lit "the cat ran";
                    Markov.chat_type := lit "private" |}
                 {| Markov.skip := true; Markov.draws := Examples.first_item |}
                 Examples.cat_globals Examples.no_files))
    with (@Ok (option str) (Some (lit "the cat sat "))) in H.
  cbv iota in H. destruct H as [_ H]. apply H.
  - split.
    + repeat constructor; simpl; intuition discriminate.
    + repeat constructor; vm_compute; reflexivity.
  - repeat constructor; vm_compute; reflexivity.
Defined.

(** ** Learning in [markov.py] *)

(** X7: learning never removes or reorders what the chain holds: every key
    that was there is still there after [learn], and its successor list is
    the old list with, possibly, new tokens appended. *)
Theorem learn_only_appends (chain chain' : Markov.Chain)
    (tokens : list str) :
  Markov.learn chain tokens = Ok chain' ->
  forall context successors,
    dict_get tuple_eqb chain context = Some successors ->
    exists more,
      dict_get tuple_eqb chain' context = Some (successors ++ more).
Proof.
  rewrite MarkovFacts.learn_observe_all. apply LearnMore.observe_all_grows.
Qed.

Lemma learn_only_appends_witness :
  exists more,
    dict_get tuple_eqb
      [ ([lit "the"; lit "cat"], [lit "sat"; lit "ran"]);
        ([lit "cat"; lit "sat"], [[]]);
        ([lit "cat"; lit "ran"], [[]]) ]
      [lit "the"; lit "cat"]
    = Some ([lit "sat"] ++ more).
Proof.
  apply (learn_only_appends Examples.cat_chain _
           (Markov.tokenize (lit "the cat ran"))); reflexivity.
Defined.

(** X8: after [learn], every window of the message is a key of the chain
    and the token that follows the window is among its successors. *)
Theorem learn_records_every_observation (chain chain' : Markov.Chain)
    (tokens : list str) :
  Markov.learn chain tokens = Ok chain' ->
  forall i, (i + LearnSpec.N < length tokens)%nat ->
    recorded chain' (firstn LearnSpec.N (skipn i tokens))
             (nth (i + LearnSpec.N) tokens []).
Proof.
  rewrite MarkovFacts.learn_observe_all. intros H i Hi.
  apply LearnMore.observe_all_records in H. rewrite Forall_forall in H.
  apply (H (firstn LearnSpec.N (skipn i tokens),
            nth (i + LearnSpec.N) tokens [])).
  eapply nth_error_In. now apply MarkovFacts.observations_nth.
Qed.

Lemma learn_records_every_observation_witness :
  recorded Examples.cat_chain [lit "cat"; lit "sat"] [].
Proof.
  apply (learn_records_every_observation []
           Examples.cat_chain (Markov.tokenize (lit "the cat sat"))
           eq_refl 1%nat).
  vm_compute. lia.
Defined.

(** X9: learning the same message a second time changes nothing in the
    chain. *)
Theorem learn_twice_is_learn_once (chain chain' : Markov.Chain)
    (tokens : list str) :
  Markov.learn chain tokens = Ok chain' ->
  Markov.learn chain' tokens = Ok chain'.
Proof.
  rewrite !MarkovFacts.learn_observe_all. intros H.
  apply LearnMore.observe_all_recorded_noop.
  eapply LearnMore.observe_all_records; eauto.
Qed.

Lemma learn_twice_is_learn_once_witness :
  Markov.learn Examples.cat_chain (Markov.tokenize (lit "the cat sat"))
  = Ok Examples.cat_chain.
Proof.
  apply (learn_twice_is_learn_once []). reflexivity.
Defined.

(** X10: in every chain learned from messages, every key is a tuple of
    exactly [MARKOV_ORDER] tokens and no successor list holds a token
    twice. *)
Theorem learned_chain_shape (texts : list str) : forall chain chain',
  keys_of_order chain -> successors_distinct chain ->
  learn_all chain texts = Ok chain' ->
  keys_of_order chain' /\ successors_distinct chain'.
Proof.
  induction texts as [|t rest IH]; intros chain chain' Hk Hd H; simpl in H.
  - injection H as <-. auto.
  - destruct (Markov.learn chain (Markov.tokenize t)) as [c1|] eqn:E;
      [|discriminate].
    cbn [bind] in H. eapply IH; [| |exact H].
    + eapply LearnMore.learn_keys_of_order; eauto.
    + eapply LearnMore.learn_successors_distinct; eauto.
Qed.

Lemma learned_chain_shape_witness :
  keys_of_order Examples.cat_chain /\ successors_distinct Examples.cat_chain.
Proof.
  apply (learned_chain_shape [lit "the cat sat"; lit "cat"] []).
  - constructor.
  - constructor.
  - reflexivity.
Defined.

(** ** Statistics *)

(** X11: on a chain with at least one key, [wisdom] of [markov.py] does not
    fail; it reports the number of keys and the total length of the successor
    lists, and when every key has a successor (as in every learned chain) the
    size is at least the number of keys, so the variability is at least 1. *)
Theorem wisdom_on_chain_with_successors (g : Markov.globals) :
  Markov.markov_chain g <> [] ->
  successors_nonempty (Markov.markov_chain g) ->
  exists st,
    Markov.wisdom g = Ok st
    /\ Markov.st_total_words st = len (Markov.markov_chain g)
    /\ Markov.st_chain_size st
       = Markov.sum (map (fun kv => len (snd kv)) (Markov.markov_chain g))
    /\ Markov.st_total_words st <= Markov.st_chain_size st
    /\ (1 <= Markov.st_variability st)%Q.
Proof.
  intros Hne Hs. eexists. split; [now apply HandlerFacts.wisdom_nonempty|].
  cbn [Markov.st_total_words Markov.st_chain_size Markov.st_variability].
  assert (Hle : len (Markov.markov_chain g)
                <= Markov.sum (map (fun kv => len (snd kv))
                                 (Markov.markov_chain g))).
  { assert (Hv : Forall (fun v : list str => v <> [])
                        (map snd (Markov.markov_chain g))).
    { unfold successors_nonempty in Hs. now rewrite Forall_map. }
    apply StatsMore.sum_at_least_length in Hv.
    rewrite map_map in Hv. unfold len in Hv at 1.
    rewrite length_map in Hv. exact Hv. }
  assert (Hpos : 0 < len (Markov.markov_chain g)).
  { unfold len. destruct (Markov.markov_chain g); [congruence|]. simpl. lia. }
  repeat split; auto.
  apply Qle_shift_div_l.
  - change 0%Q with (inject_Z 0). now rewrite <- Zlt_Qlt.
  - rewrite Qmult_1_l. now rewrite <- Zle_Qle.
Qed.

Lemma wisdom_on_chain_with_successors_witness :
  exists st,
    Markov.wisdom Examples.cat_globals = Ok st
    /\ Markov.st_total_words st = len Examples.cat_chain
    /\ Markov.st_chain_size st
       = Markov.sum (map (fun kv => len (snd kv)) Examples.cat_chain)
    /\ Markov.st_total_words st <= Markov.st_chain_size st
    /\ (1 <= Markov.st_variability st)%Q.
Proof.
  apply (wisdom_on_chain_with_successors Examples.cat_globals).
  - discriminate.
  - repeat constructor; discriminate.
Defined.

(** X12: [wisdom_command] of [new_bot.py] reports the true numbers when no
    successor contains a comma: on the rows that hold a chain whose every key
    has a successor, the count is the number of keys and the size, computed
    from the commas of the column, is the total length of the successor
    lists, as [wisdom] of [markov.py] computes it. *)
Theorem wisdom_command_without_commas (isprintable : char -> bool)
    (chain : Markov.Chain) (st : list (str * Z)) :
  successors_nonempty chain ->
  Forall (fun kv => Forall (fun t => ~ In 44%N t) (snd kv)) chain ->
  let report :=
    NewBot.wisdom_command
      {| NewBot.chain := rows_of isprintable chain; NewBot.stats := st |} in
  NewBot.sm_chain_count report = len chain
  /\ NewBot.sm_chain_size report
     = Markov.sum (map (fun kv => len (snd kv)) chain).
Proof.
  intros Hne Hc. cbv zeta. unfold NewBot.wisdom_command.
  cbn [NewBot.chain NewBot.sm_chain_count NewBot.sm_chain_size].
  rewrite (StatsMore.sum_of_rows isprintable chain Hne Hc).
  split.
  - unfold len, rows_of. now rewrite length_map.
  - unfold NewBot.sql_sum, Markov.sum.
    now destruct (map (fun kv => len (snd kv)) chain).
Qed.

Lemma wisdom_command_without_commas_witness :
  NewBot.sm_chain_count
    (NewBot.wisdom_command
       {| NewBot.chain := rows_of Examples.all_printable Examples.cat_chain;
          NewBot.stats := [] |}) = len Examples.cat_chain
  /\ NewBot.sm_chain_size
       (NewBot.wisdom_command
          {| NewBot.chain := rows_of Examples.all_printable Examples.cat_chain;
             NewBot.stats := [] |})
     = Markov.sum (map (fun kv => len (snd kv)) Examples.cat_chain).
Proof.
  apply (wisdom_command_without_commas Examples.all_printable
           Examples.cat_chain []).
  - repeat constructor; discriminate.
  - repeat constructor; simpl; intuition discriminate.
Defined.

(** ** The counters of [new_bot.py] *)

(** X13: when table [stats] has a row [total_messages], [handle_message]
    adds exactly one to what [get_stat] reports for it, whatever the handler
    does afterwards. *)
Theorem total_messages_incremented_when_row_exists
    (isprintable : char -> bool) (lower : str -> str)
    (m : NewBot.Message) (rnd : oracle) (d : NewBot.db) :
  In (lit "total_messages") (map fst (NewBot.stats d)) ->
  NewBot.get_stat
    (fst (NewBot.handle_message isprintable lower m rnd d))
    (lit "total_messages")
  = NewBot.get_stat d (lit "total_messages") + 1.
Proof.
  intros Hrow. unfold NewBot.handle_message.
  set (d1 := NewBot.update_stat d (lit "total_messages") _).
  assert (H1 : NewBot.get_stat d1 (lit "total_messages")
               = NewBot.get_stat d (lit "total_messages") + 1)
    by now apply NewBotFacts.get_stat_updated.
  destruct (NewBot.build_markov_chain isprintable d1
              (split (NewBot.text m))) as [d2|] eqn:E; [|exact H1].
  apply NewBotFacts.build_markov_chain_stats in E.
  assert (H2 : NewBot.get_stat d2 (lit "total_messages")
               = NewBot.get_stat d (lit "total_messages") + 1).
  { rewrite <- H1. now apply StatsMore.get_stat_same_stats. }
  destruct (negb (NewBot.trigger_conditions lower m)); [exact H2|].
  destruct (NewBot.generate_text isprintable d2 rnd NewBot.MAX_WORDS);
    cbn [fst]; [|exact H2].
  rewrite StatsMore.get_stat_update_other; [exact H2|].
  intros Heq. vm_compute in Heq. discriminate.
Qed.

Lemma total_messages_incremented_when_row_exists_witness :
  NewBot.get_stat
    (fst (NewBot.handle_message Examples.all_printable (fun s => s)
            {| NewBot.text := lit "a b c"; NewBot.chat_type := lit "private" |}
            Examples.first_item
            {| NewBot.chain := []; NewBot.stats := [(lit "total_messages", 7)] |}))
    (lit "total_messages")
  = NewBot.get_stat
      {| NewBot.chain := []; NewBot.stats := [(lit "total_messages", 7)] |}
      (lit "total_messages") + 1.
Proof.
  apply total_messages_incremented_when_row_exists. simpl. now left.
Defined.

(** X14: [handle_message] never adds a row to table [stats] and never
    removes one: the keys of the table are the same after the handler as
    before, for every message and every outcome.  So a counter that has no
    row is reported as 0 after every message. *)
Theorem handle_message_keeps_stats_rows
    (isprintable : char -> bool) (lower : str -> str)
    (m : NewBot.Message) (rnd : oracle) (d : NewBot.db) :
  let d' := fst (NewBot.handle_message isprintable lower m rnd d) in
  map fst (NewBot.stats d') = map fst (NewBot.stats d)
  /\ (forall key, ~ In key (map fst (NewBot.stats d)) ->
                  NewBot.get_stat d' key = 0).
Proof.
  cbv zeta.
  pose proof (NewBotFacts.handle_message_stats_keys isprintable lower m rnd d)
    as H.
  split; [exact H|]. intros key Hkey.
  apply NewBotFacts.get_stat_no_row. now rewrite H.
Qed.

Lemma handle_message_keeps_stats_rows_witness :
  NewBot.get_stat
    (fst (NewBot.handle_message Examples.all_printable (fun s => s)
            {| NewBot.text := lit "a b c"; NewBot.chat_type := lit "private" |}
            Examples.first_item
            {| NewBot.chain := []; NewBot.stats := [(lit "total_messages", 7)] |}))
    (lit "generated_messages")
  = 0.
Proof.
  apply (proj2 (handle_message_keeps_stats_rows Examples.all_printable
                  (fun s => s)
                  {| NewBot.text := lit "a b c";
                     NewBot.chat_type := lit "private" |}
                  Examples.first_item
                  {| NewBot.chain := [];
                     NewBot.stats := [(lit "total_messages", 7)] |})).
  simpl. intros [H|[]]. discriminate.
Defined.

(** ** The generated text *)

(** X15: whatever the store holds, the text that [generate_text] of
    [new_bot.py] returns neither starts nor ends with a whitespace
    character. *)
Theorem generate_text_is_trimmed (isprintable : char -> bool)
    (d : NewBot.db) (rnd : oracle) (max_words : Z) (s : str) :
  NewBot.generate_text isprintable d rnd max_words = Ok s ->
  (s = [] \/ exists c r, s = c :: r /\ isspace c = false)
  /\ (s = [] \/ exists r c, s = r ++ [c] /\ isspace c = false).
Proof.
  unfold NewBot.generate_text.
  destruct (NewBot.generate_tokens isprintable d rnd max_words) as [out|];
    cbn [bind]; [|discriminate].
  intros [= <-]. split; [apply TextMore.strip_first | apply TextFacts.strip_last].
Qed.

Lemma generate_text_is_trimmed_witness :
  (lit "a b c," = [] \/ exists c r, lit "a b c," = c :: r /\ isspace c = false)
  /\ (lit "a b c," = []
      \/ exists r c, lit "a b c," = r ++ [c] /\ isspace c = false).
Proof.
  apply (generate_text_is_trimmed Examples.all_printable Examples.comma_db
           Examples.first_item 5).
  reflexivity.
Defined.

(** X16: on a chain of [markov.py] with at least one key, every key having
    a successor, [generate_markov_text] does not fail: it returns the tokens
    of one of the keys followed by at most [max_words] tokens, joined by
    single spaces. *)
Theorem generate_markov_text_on_learned_chain (chain : Markov.Chain)
    (rnd : oracle) (max_words : Z) :
  chain <> [] -> successors_nonempty chain ->
  exists seed suffix,
    In seed (map fst chain)
    /\ (length suffix <= Z.to_nat max_words)%nat
    /\ Markov.generate_tokens chain rnd max_words = Ok (seed ++ suffix)
    /\ Markov.generate_markov_text chain rnd max_words
       = Ok (join (lit " ") (seed ++ suffix)).
Proof.
  intros Hne Hs. unfold Markov.generate_markov_text, Markov.generate_tokens.
  destruct (choice_nonempty (rnd O) (map fst chain)) as (seed & Hseed).
  { destruct chain; [congruence | discriminate]. }
  rewrite Hseed. cbn [bind].
  destruct (GenerateFacts.generate_loop_total chain rnd (range max_words)
              Hs 1%nat seed) as (out & Hout).
  destruct (GenerateFacts.generate_loop_sound _ _ _ _ _ _ Hout)
    as (suffix & -> & Hle & _).
  rewrite range_length in Hle. rewrite Hout. cbn [bind].
  exists seed, suffix. repeat split; auto.
  eapply choice_In; eauto.
Qed.

Lemma generate_markov_text_on_learned_chain_witness :
  exists seed suffix,
    In seed (map fst Examples.cat_chain)
    /\ (length suffix <= Z.to_nat 50)%nat
    /\ Markov.generate_tokens Examples.cat_chain Examples.first_item 50
       = Ok (seed ++ suffix)
    /\ Markov.generate_markov_text Examples.cat_chain Examples.first_item 50
       = Ok (join (lit " ") (seed ++ suffix)).
Proof.
  apply generate_markov_text_on_learned_chain.
  - discriminate.
  - repeat constructor; discriminate.
Defined.

(** X17: in a run of [generate_markov_text] on a chain whose keys are free
    of the empty string (as in every learned chain), only the last token can
    be the empty string: generation appends nothing after it. *)
Theorem generated_sentinel_is_last (chain : Markov.Chain) (rnd : oracle)
    (max_words : Z) (out : list str) :
  keys_without_sentinel chain ->
  Markov.generate_tokens chain rnd max_words = Ok out ->
  sentinel_only_last out.
Proof.
  intros Hk H. unfold Markov.generate_tokens in H.
  destruct (choice (rnd O) (map fst chain)) as [seed|] eqn:Hseed;
    cbn [bind] in H; [|discriminate].
  eapply GenerateMore.generate_loop_sentinel_last; [exact Hk| |exact H].
  apply choice_In in Hseed.
  apply LearnInvariants.keys_without_sentinel_keys in Hk.
  rewrite Forall_forall in Hk. now apply Hk.
Qed.

Lemma generated_sentinel_is_last_witness :
  sentinel_only_last [lit "the"; lit "cat"; lit "sat"; []].
Proof.
  apply (generated_sentinel_is_last Examples.cat_chain Examples.first_item 50).
  - repeat constructor; simpl; intuition discriminate.
  - reflexivity.
Defined.

(** X18: the text of words joined by single spaces splits back into these
    words, with or without a final empty string: what the two generators
    return is tokenized by the learners into the tokens that were generated,
    the sentinel apart. *)
Theorem split_undoes_join (ws : list str) :
  Forall word ws ->
  split (join (lit " ") ws) = ws
  /\ split (join (lit " ") (ws ++ [[]])) = ws
  /\ split (strip (join (lit " ") (ws ++ [[]]))) = ws.
Proof.
  intros Hw. split; [now apply TextMore.split_join_from|]. split.
  - destruct ws as [|w r]; [reflexivity|].
    rewrite TextFacts.join_sentinel by discriminate.
    rewrite TextMore.split_trailing_space.
    now apply TextMore.split_join_from.
  - rewrite TextFacts.strip_join_sentinel by assumption.
    now apply TextMore.split_join_from.
Qed.

Lemma split_undoes_join_witness :
  split (join (lit " ") [lit "the"; lit "cat"]) = [lit "the"; lit "cat"]
  /\ split (join (lit " ") ([lit "the"; lit "cat"] ++ [[]]))
     = [lit "the"; lit "cat"]
  /\ split (strip (join (lit " ") ([lit "the"; lit "cat"] ++ [[]])))
     = [lit "the"; lit "cat"].
Proof.
  apply split_undoes_join.
  repeat constructor; try discriminate.
Defined.

(** ** The rows of [new_bot.py] *)

(** X19: [build_markov_chain] keeps the keys of table [chain] pairwise
    distinct: it inserts a row only for a key that has none, so the primary
    key is never violated. *)
Theorem build_markov_chain_keeps_keys_distinct (isprintable : char -> bool)
    (d d' : NewBot.db) (words : list str) :
  NoDup (map fst (NewBot.chain d)) ->
  NewBot.build_markov_chain isprintable d words = Ok d' ->
  NoDup (map fst (NewBot.chain d')).
Proof.
  intros Hnd H. eapply Simulation.build_markov_chain_NoDup; eauto.
Qed.

Lemma build_markov_chain_keeps_keys_distinct_witness :
  NoDup (map fst Examples.comma_rows).
Proof.
  apply (build_markov_chain_keeps_keys_distinct Examples.all_printable
           NewBot.init_db Examples.comma_db (split (lit "a b c,"))).
  - constructor.
  - reflexivity.
Defined.

(** X20: the two variants learn the same model.  For every sequence of
    messages, [build_markov_chain] of [new_bot.py], run on them in turn from
    the empty database, does not fail and leaves exactly the rows that hold
    the chain which [markov.py] learns from the same messages: one row per
    key, in the same order, with the texts of the key and of its successor
    list. *)
Theorem both_variants_learn_the_same_chain (isprintable : char -> bool)
    (texts : list str) :
  Forall valid_str texts ->
  exists chain,
    learn_all [] texts = Ok chain
    /\ build_all isprintable NewBot.init_db texts
       = Ok {| NewBot.chain := rows_of isprintable chain;
               NewBot.stats := [] |}.
Proof.
  intros Hv.
  apply (Simulation.build_all_follows_learn_all isprintable texts Hv [] []).
  constructor.
Qed.

Lemma both_variants_learn_the_same_chain_witness :
  exists chain,
    learn_all [] [lit "the cat sat"; lit "the cat ran"] = Ok chain
    /\ build_all Examples.all_printable NewBot.init_db
         [lit "the cat sat"; lit "the cat ran"]
       = Ok {| NewBot.chain := rows_of Examples.all_printable chain;
               NewBot.stats := [] |}.
Proof.
  apply both_variants_learn_the_same_chain.
  repeat constructor; vm_compute; reflexivity.
Defined.

(** X21: the two variants generate the same tokens.  On the rows that
    hold a non-empty chain of strings whose keys are free of the empty
    string, and with the same random draws, [generate_text] of [new_bot.py]
    builds the token list that [generate_markov_text] of [markov.py] builds
    on the chain (the explicit [break] after an empty word stops where the
    missed lookup stops), and returns the same text, trimmed. *)
Theorem both_variants_generate_the_same_tokens (isprintable : char -> bool)
    (chain : Markov.Chain) (st : list (str * Z)) (rnd : oracle)
    (max_words : Z) :
  chain <> [] -> chain_valid chain -> keys_without_sentinel chain ->
  let d := {| NewBot.chain := rows_of isprintable chain;
              NewBot.stats := st |} in
  NewBot.generate_tokens isprintable d rnd max_words
  = Markov.generate_tokens chain rnd max_words
  /\ NewBot.generate_text isprintable d rnd max_words
     = bind (Markov.generate_markov_text chain rnd max_words)
            (fun s => Ok (strip s)).
Proof.
  intros Hne Hc Hk d.
  assert (Htok : NewBot.generate_tokens isprintable d rnd max_words
                 = Markov.generate_tokens chain rnd max_words).
  { unfold NewBot.generate_tokens, Markov.generate_tokens,
      NewBot.get_random_key, choice.
    subst d. cbn [NewBot.chain].
    assert (Hkeys : map fst (rows_of isprintable chain)
                    = map (str_tuple isprintable) (map fst chain)).
    { unfold rows_of. now rewrite !map_map. }
    rewrite Hkeys.
    replace (length (rows_of isprintable chain))
      with (length (map fst chain))
      by (unfold rows_of; now rewrite !length_map).
    rewrite nth_error_map.
    destruct (nth_error (map fst chain)
                (rnd O mod length (map fst chain))) as [key|] eqn:E.
    - cbn [option_map bind].
      assert (Hv : Forall valid_str key).
      { apply nth_error_In in E. apply in_map_iff in E as ([k v] & <- & Hin).
        unfold chain_valid in Hc. rewrite Forall_forall in Hc.
        exact (proj1 (Hc _ Hin)). }
      pose proof (ReprFacts.eval_str_tuple isprintable key Hv) as Hev.
      destruct (str_tuple isprintable key) as [|c0 col] eqn:Es.
      + destruct key as [|x [|y r]]; discriminate.
      + rewrite Hev. cbn [bind NewBot.items_of].
        apply GenerateSim.generate_loop_rows_of; assumption.
    - exfalso. apply nth_error_None in E.
      assert (length (map fst chain) <> 0)%nat
        by (destruct chain; [congruence | discriminate]).
      pose proof (Nat.mod_upper_bound (rnd O) (length (map fst chain)) H).
      lia. }
  split; [exact Htok|].
  unfold NewBot.generate_text, Markov.generate_markov_text. rewrite Htok.
  now destruct (Markov.generate_tokens chain rnd max_words).
Qed.

Lemma both_variants_generate_the_same_tokens_witness :
  NewBot.generate_tokens Examples.all_printable
    {| NewBot.chain := rows_of Examples.all_printable Examples.cat_chain;
       NewBot.stats := [] |} Examples.first_item 50
  = Markov.generate_tokens Examples.cat_chain Examples.first_item 50
  /\ NewBot.generate_text Examples.all_printable
       {| NewBot.chain := rows_of Examples.all_printable Examples.cat_chain;
          NewBot.stats := [] |} Examples.first_item 50
     = bind (Markov.generate_markov_text Examples.cat_chain
               Examples.first_item 50)
            (fun s => Ok (strip s)).
Proof.
  apply (both_variants_generate_the_same_tokens Examples.all_printable
           Examples.cat_chain [] Examples.first_item 50).
  - discriminate.
  - repeat constructor; vm_compute; reflexivity.
  - repeat constructor; simpl; intuition discriminate.
Defined.

End Extras.
